(** * cert-monitor-lambda: the incremental sync and matching engine

    A shallow embedding of [Handler], [processLog] and [nameMatches]
    (package main) and of the configuration type of config.go, with the
    certificate-transparency client, the regexp engine, the blob store,
    the clock and the random source taken as interfaces. *)

From Stdlib Require Import ZArith Lia Sorted.
From stdpp Require Import base option list strings gmap.

Local Open Scope Z_scope.

(** ** Go strings *)

Module GoStrings.

(** [s[n:]] for [n <= len(s)]. *)
Fixpoint slice_from (n : nat) (s : string) : string :=
  match n, s with
  | O, _ => s
  | S n', String _ s' => slice_from n' s'
  | S _, EmptyString => EmptyString
  end.

(** [strings.HasSuffix]:
    [len(s) >= len(suffix) && s[len(s)-len(suffix):] == suffix]. *)
Definition HasSuffix (s suffix : string) : bool :=
  (String.length suffix <=? String.length s)%nat
  && bool_decide
       (slice_from (String.length s - String.length suffix) s = suffix).

End GoStrings.

Import GoStrings.

(** ** The regexp package, as an interface *)

Class RegexpLib := {
  Regexp : Type;
  (** [regexp.Compile]: [None] is a non-nil error. *)
  regexp_Compile : string -> option Regexp;
  (** [Regexp.Match] on the bytes of a name. *)
  regexp_Match : Regexp -> string -> bool;
  (** [Regexp.String]: the source text of the pattern. *)
  regexp_String : Regexp -> string
}.

(** A small engine for closed examples: a pattern is kept as its text,
    the text of a lone opening parenthesis does not compile, and a
    pattern matches the names that end with it. *)
Definition suffix_engine : RegexpLib := {|
  Regexp := string;
  regexp_Compile := fun p => if bool_decide (p = "(") then None else Some p;
  regexp_Match := fun r name => HasSuffix name r;
  regexp_String := fun r => r
|}.

(** ** config.go *)

Record Config := {
  Domains : list string;
  Patterns : list string;
  IncludePreCerts : bool
}.

(** ** x509 certificates and log entries, as far as the engine reads them *)

Record Certificate := { DNSNames : list string }.

Record Precertificate := { TBSCertificate : option Certificate }.

Record LogEntry := {
  X509Cert : option Certificate;
  Precert : option Precertificate
}.

(** ** The rule engine: [nameMatches] *)

Section RuleEngine.
Context {RE : RegexpLib}.

Record server := {
  bucket : string;
  conf : Config;
  patterns : list Regexp
}.

(** The test of one name against one domain rule (the two nested
    conditions of the inner loop). *)
Definition domainMatches (name lookingFor : string) : bool :=
  if HasSuffix name lookingFor then
    if bool_decide (name = lookingFor)
       || HasSuffix name ("." +:+ lookingFor)
    then true else false
  else false.

(** [for _, lookingFor := range s.conf.Domains]. *)
Fixpoint match_domains (name : string) (domains : list string)
  : option string :=
  match domains with
  | [] => None
  | lookingFor :: rest =>
      if domainMatches name lookingFor
      then Some ("domain-" +:+ lookingFor)
      else match_domains name rest
  end.

(** [for _, pattern := range s.patterns]. *)
Fixpoint match_patterns (name : string) (ps : list Regexp)
  : option string :=
  match ps with
  | [] => None
  | pattern :: rest =>
      if regexp_Match pattern name
      then Some ("pattern-" +:+ regexp_String pattern)
      else match_patterns name rest
  end.

(** [for _, name := range c.DNSNames]. *)
Fixpoint match_names (s : server) (names : list string)
  : bool * string * string :=
  match names with
  | [] => (false, EmptyString, EmptyString)
  | name :: rest =>
      match match_domains name (Domains (conf s)) with
      | Some rule => (true, name, rule)
      | None =>
          match match_patterns name (patterns s) with
          | Some rule => (true, name, rule)
          | None => match_names s rest
          end
      end
  end.

Definition nameMatches (s : server) (c : Certificate)
  : bool * string * string :=
  match_names s (DNSNames c).

(** What the rules say of one name: it is a domain rule or ends with
    a dot and a domain rule, or a compiled pattern matches it. *)
Definition name_hits (s : server) (n : string) : Prop :=
  (exists R, R ∈ Domains (conf s)
             /\ (n = R \/ exists p, n = p +:+ "." +:+ R))
  \/ (exists r, r ∈ patterns s /\ regexp_Match r n = true).

End RuleEngine.

(** ** Machine integers *)

Module GoInt.

(** The value of a [uint64] expression: reduction modulo 2^64. *)
Definition uint64 (z : Z) : Z := z mod 2 ^ 64.

(** The value of an [int64] expression, and the conversion
    [int64(x)] of an unsigned [x]: two's complement on 64 bits. *)
Definition int64 (z : Z) : Z := (z + 2 ^ 63) mod 2 ^ 64 - 2 ^ 63.

End GoInt.

Import GoInt.

(** ** Errors and results *)

(** The [error] values the program builds or passes on. *)
Inductive error :=
| LibError (msg : string)
    (** an error value made by a library or a service *)
| EnvNotSet
    (** "environment var CERT_MONITOR_BUCKET not set" *)
| LoadConfigErr (cause : error)
    (** "load config err: %w" *)
| FetchLogListErr (cause : error)
    (** "fetch log list err: %w" *)
| CompilePatternErr (patternStr : string)
    (** "error compiling regex pattern %s err=%s" *)
| S3PutObjectErr (cause : error)
    (** "s3 put object err: %w" *)
| MarshalStatesErr (cause : error)
    (** "marshal states err: %w" *)
| PutStateErr (cause : error).
    (** "put state file err %w" *)

(** A Go pair [(T, error)] of which exactly one side is set. *)
Inductive res (A : Type) :=
| Ok (a : A)
| Fail (e : error).
Arguments Ok {A} a.
Arguments Fail {A} e.

(** How a function call ends: it returns a value with a nil error, it
    returns a non-nil error, or it panics. *)
Inductive outcome (A : Type) :=
| Returned (a : A)
| Failed (e : error)
| Panicked.
Arguments Returned {A} a.
Arguments Failed {A} e.
Arguments Panicked {A}.

(** ** The catalog of logs (package loglist3), as far as it is read *)

Module loglist3.

Inductive LogStatus :=
| UndefinedLogStatus
| PendingLogStatus
| QualifiedLogStatus
| UsableLogStatus
| ReadOnlyLogStatus
| RetiredLogStatus
| RejectedLogStatus.

Global Instance LogStatus_eq_dec : EqDecision LogStatus.
Proof. solve_decision. Defined.

Record Log := {
  Description : string;
  URL : string;
  State : LogStatus       (* log.State.LogStatus() *)
}.

Record Operator := {
  Name : string;
  Logs : list Log
}.

Record LogList := { Operators : list Operator }.

End loglist3.

(** ** State types *)

(** [time.Time], as an instant; the zero value is [zero_time]. *)
Definition Time := Z.
Definition zero_time : Time := 0.

Record LogState := {
  URL : string;
  Operator : string;
  Description : string;
  LastFetched : Z;          (* uint64 *)
  LastFetchedTime : Time
}.

(** [ct.LeafEntry]: two byte strings. *)
Record LeafEntry := {
  LeafInput : string;
  ExtraData : string
}.

Global Instance LeafEntry_eq_dec : EqDecision LeafEntry.
Proof. solve_decision. Defined.

(** Keys of the bucket.  The three families are pairwise distinct
    strings: "cert-monitor.toml", "log-state.json" and
    "certs/<time>-<random>-<name>.json". *)
Inductive ObjectKey :=
| ConfigKey
| logStateKey
| CertKey (now : Time) (bstr : string) (name : string).

Global Instance ObjectKey_eq_dec : EqDecision ObjectKey.
Proof. solve_decision. Defined.

(** What a run does to the outside, in order. *)
Inductive Event :=
| EvGetSTH (url : string)
| EvGetRawEntries (url : string) (start end_ : Z)
| EvDecode (index : Z) (entry : LeafEntry)
| EvPutObject (key : ObjectKey) (body : string) (ok : bool).

Definition is_range_request (ev : Event) : Prop :=
  match ev with EvGetRawEntries _ _ _ => True | _ => False end.

Definition is_state_write (ev : Event) : Prop :=
  match ev with EvPutObject logStateKey _ _ => True | _ => False end.

Definition is_failed_artifact_write (ev : Event) : Prop :=
  match ev with EvPutObject (CertKey _ _ _) _ false => True | _ => False end.

Global Instance is_range_request_dec ev : Decision (is_range_request ev).
Proof. destruct ev; cbn; apply _. Defined.

Global Instance is_state_write_dec ev : Decision (is_state_write ev).
Proof. destruct ev as [| | |[]]; cbn; apply _. Defined.

Global Instance is_failed_artifact_write_dec ev :
  Decision (is_failed_artifact_write ev).
Proof. destruct ev as [| | |[] ? []]; cbn; apply _. Defined.

(** ** The certificate-transparency and JSON libraries, as interfaces *)

Class CTLib := {
  (** [client.New(url, ...)]: [Some err] when the client cannot be
      built. *)
  client_New : string -> option error;
  (** [ct.LogEntryFromLeaf(index, &entry)]: the pair it returns. *)
  ct_LogEntryFromLeaf : Z -> LeafEntry -> option LogEntry * option error;
  (** [x509.IsFatal(err)]. *)
  x509_IsFatal : option error -> bool;
  (** [loglist3.NewFromJSON(llData)]. *)
  loglist3_NewFromJSON : string -> res loglist3.LogList
}.

Class CodecLib := {
  (** [json.Marshal(entry)]. *)
  json_Marshal_entry : LeafEntry -> res string;
  (** [json.Marshal(states)]; [None] is the nil map. *)
  json_Marshal_states : option (gmap string LogState) -> res string;
  (** [json.NewDecoder(body).Decode(&result)] on a body read in full;
      [Ok None] is the nil map (the JSON text null). *)
  json_Decode_states : string -> res (option (gmap string LogState));
  (** [toml.Unmarshal(body, &conf)]. *)
  toml_Unmarshal : string -> res Config
}.

(** ** What the outside answers to one sync task *)

Record TaskEnv := {
  (** [lc.GetSTH(ctx)]: the tree size of the head, a uint64, or an
      error. *)
  GetSTH : res Z;
  (** [lc.GetRawEntries(ctx, start, end)]. *)
  GetRawEntries : Z -> Z -> res (list LeafEntry);
  (** [s.s3.PutObject] of an artifact, by the number of calls the task
      made before it. *)
  PutObject : nat -> ObjectKey -> string -> option error;
  (** [time.Now()] and [rand.Read] (16 bytes, encoded), by the same
      number. *)
  time_Now : nat -> Time;
  rand_Read : nat -> string
}.

(** ** [processLog] *)

Section ProcessLog.
Context {RE : RegexpLib} {CT : CTLib} {CD : CodecLib}.

(** What runs through the loop over the fetched entries. *)
Record LoopState := {
  calls : nat;            (* clock, random and store calls so far *)
  trace : list Event;     (* in order of occurrence *)
  entriesSeen : nat
}.

Definition emit (ev : Event) (w : LoopState) : LoopState :=
  {| calls := calls w; trace := trace w ++ [ev];
     entriesSeen := entriesSeen w |}.

Definition tick (w : LoopState) : LoopState :=
  {| calls := S (calls w); trace := trace w;
     entriesSeen := entriesSeen w |}.

Definition count_entry (w : LoopState) : LoopState :=
  {| calls := calls w; trace := trace w;
     entriesSeen := S (entriesSeen w) |}.

(** The certificate the rules are run on: the X509 certificate, or
    with [IncludePreCerts] the TBS certificate of the precertificate. *)
Definition select_cert (s : server) (logEntry : LogEntry)
  : option Certificate :=
  let cert := X509Cert logEntry in
  match IncludePreCerts (conf s), Precert logEntry with
  | true, Some pre => TBSCertificate pre
  | _, _ => cert
  end.

(** The body of [if match, name, matchStr := s.nameMatches(cert); match]:
    [None] stands for falling through to the next entry, [Some e] for
    [return nil, e]. *)
Definition store_match (env : TaskEnv) (entry : LeafEntry)
    (name : string) (w : LoopState) : option error * LoopState :=
  let bstr := rand_Read env (calls w) in
  let w := tick w in
  let key := CertKey (time_Now env (calls w)) bstr name in
  let w := tick w in
  match json_Marshal_entry entry with
  | Fail err => (Some err, w)
  | Ok jsonTxt =>
      match PutObject env (calls w) key jsonTxt with
      | Some err =>
          (Some (S3PutObjectErr err),
           tick (emit (EvPutObject key jsonTxt false) w))
      | None => (None, tick (emit (EvPutObject key jsonTxt true) w))
      end
  end.

(** [for i, entry := range rawEntries.Entries], from position [i] on.
    [None] is the normal end of the loop; [Some o] leaves
    [processLog] with [o]. *)
Fixpoint process_entries (s : server) (env : TaskEnv) (start : Z)
    (i : Z) (entries : list LeafEntry) (w : LoopState)
  : option (outcome LogState) * LoopState :=
  match entries with
  | [] => (None, w)
  | entry :: rest =>
      let w := count_entry w in
      let index := int64 (start + i) in
      let '(logEntry, err) := ct_LogEntryFromLeaf index entry in
      let w := emit (EvDecode index entry) w in
      if x509_IsFatal err then
        process_entries s env start (i + 1) rest w
      else
        match logEntry with
        | None => (Some Panicked, w)      (* logEntry.X509Cert on nil *)
        | Some logEntry =>
            match select_cert s logEntry with
            | None => process_entries s env start (i + 1) rest w
            | Some cert =>
                match nameMatches s cert with
                | (true, name, _) =>
                    match store_match env entry name w with
                    | (Some e, w) => (Some (Failed e), w)
                    | (None, w) =>
                        process_entries s env start (i + 1) rest w
                    end
                | (false, _, _) =>
                    process_entries s env start (i + 1) rest w
                end
            end
        end
  end.

Definition set_fetched (state : LogState) (size : Z) (now : Time)
  : LogState :=
  {| URL := URL state; Operator := Operator state;
     Description := Description state;
     LastFetched := size; LastFetchedTime := now |}.

(** What one call of [processLog] yields: its return, what it did to
    the outside, and the count it logs when it leaves. *)
Record TaskRun := {
  result : outcome LogState;
  events : list Event;
  seen : nat
}.

Definition leave (o : outcome LogState) (w : LoopState) : TaskRun :=
  {| result := o; events := trace w; seen := entriesSeen w |}.

Definition processLog (s : server) (env : TaskEnv) (state : LogState)
  : TaskRun :=
  let w := {| calls := 0; trace := []; entriesSeen := 0 |} in
  match client_New (URL state) with
  | Some err => leave (Failed err) w
  | None =>
      let w := emit (EvGetSTH (URL state)) w in
      match GetSTH env with
      | Fail _ => leave (Returned state) w
      | Ok TreeSize =>
          if bool_decide (LastFetched state = 0) then
            leave (Returned
                     (set_fetched state TreeSize (time_Now env (calls w))))
                  (tick w)
          else if bool_decide (TreeSize = LastFetched state) then
            leave (Returned state) w
          else
            let start := int64 (uint64 (LastFetched state + 1)) in
            let w :=
              emit (EvGetRawEntries (URL state) start (int64 TreeSize)) w in
            match GetRawEntries env start (int64 TreeSize) with
            | Fail _ => leave (Returned state) w
            | Ok entries =>
                match process_entries s env start 0 entries w with
                | (Some o, w) => leave o w
                | (None, w) =>
                    leave (Returned
                             (set_fetched state TreeSize
                                          (time_Now env (calls w))))
                          (tick w)
                end
            end
      end
  end.

End ProcessLog.

(** ** What a task is seen to do *)

Section Observations.
Context {RE : RegexpLib} {CT : CTLib} {CD : CodecLib}.

(** The entries handed to the decoder, with their indices. *)
Definition decoded (evs : list Event) : list (Z * LeafEntry) :=
  omap (fun ev =>
          match ev with EvDecode index entry => Some (index, entry)
                   | _ => None end) evs.

(** The artifacts stored: the matched name in the key, and the body. *)
Definition artifacts (evs : list Event) : list (string * string) :=
  omap (fun ev =>
          match ev with
          | EvPutObject (CertKey _ _ name) body true => Some (name, body)
          | _ => None
          end) evs.

(** The events of the loop over the entries. *)
Definition is_entry_event (ev : Event) : Prop :=
  match ev with
  | EvDecode _ _ | EvPutObject (CertKey _ _ _) _ _ => True
  | _ => False
  end.

(** The batch as the loop labels it: the entry at position [i] gets
    the index [start + int64(i)]. *)
Fixpoint indexed (start i : Z) (entries : list LeafEntry)
  : list (Z * LeafEntry) :=
  match entries with
  | [] => []
  | entry :: rest => (int64 (start + i), entry) :: indexed start (i + 1) rest
  end.

Definition matched_name (s : server) (cert : Certificate)
  : option string :=
  match nameMatches s cert with
  | (true, name, _) => Some name
  | (false, _, _) => None
  end.

(** The name an entry is stored under, if the rules keep it: its
    decoding is not fatal, and the certificate chosen in it matches. *)
Definition entry_hit (s : server) (index : Z) (entry : LeafEntry)
  : option string :=
  let '(logEntry, err) := ct_LogEntryFromLeaf index entry in
  if x509_IsFatal err then None
  else
    match logEntry with
    | None => None
    | Some logEntry =>
        match select_cert s logEntry with
        | None => None
        | Some cert => matched_name s cert
        end
    end.

Definition body_of (entry : LeafEntry) : string :=
  match json_Marshal_entry entry with
  | Ok jsonTxt => jsonTxt
  | Fail _ => EmptyString
  end.

Definition batch_artifacts (s : server) (batch : list (Z * LeafEntry))
  : list (string * string) :=
  omap (fun ie =>
          match entry_hit s ie.1 ie.2 with
          | Some name => Some (name, body_of ie.2)
          | None => None
          end) batch.

(** The decoder never gives a nil entry with an error that is not
    fatal. *)
Definition decoder_gives_entry : Prop :=
  forall index entry,
    x509_IsFatal (ct_LogEntryFromLeaf index entry).2 = false ->
    is_Some (ct_LogEntryFromLeaf index entry).1.

Definition marshal_works : Prop :=
  forall entry, exists jsonTxt, json_Marshal_entry entry = Ok jsonTxt.

Definition writes_succeed (env : TaskEnv) : Prop :=
  forall n key body, PutObject env n key body = None.

(** What [store_match] can do. *)
Inductive store_match_case (env : TaskEnv) (entry : LeafEntry)
    (name : string) (w : LoopState)
  : option error -> LoopState -> Prop :=
| sm_marshal err w' :
    json_Marshal_entry entry = Fail err ->
    trace w' = trace w ->
    store_match_case env entry name w (Some err) w'
| sm_put_fails err key w' :
    PutObject env (S (S (calls w))) key (body_of entry) = Some err ->
    trace w' = trace w ++ [EvPutObject key (body_of entry) false] ->
    (exists t b, key = CertKey t b name) ->
    store_match_case env entry name w (Some (S3PutObjectErr err)) w'
| sm_stored key w' :
    trace w' = trace w ++ [EvPutObject key (body_of entry) true] ->
    (exists t b, key = CertKey t b name) ->
    store_match_case env entry name w None w'.

(** The range a task asks for, from its watermark and the size. *)
Definition request_of (state : LogState) (size : Z) : Event :=
  EvGetRawEntries (URL state)
    (int64 (uint64 (LastFetched state + 1))) (int64 size).

(** The ways through [processLog], each with what it yields. *)
Inductive path (s : server) (env : TaskEnv) (state : LogState)
  : TaskRun -> Prop :=
| path_no_client err :
    client_New (URL state) = Some err ->
    path s env state {| result := Failed err; events := []; seen := 0 |}
| path_no_size err :
    client_New (URL state) = None ->
    GetSTH env = Fail err ->
    path s env state
         {| result := Returned state;
            events := [EvGetSTH (URL state)]; seen := 0 |}
| path_init size :
    client_New (URL state) = None ->
    GetSTH env = Ok size ->
    LastFetched state = 0 ->
    path s env state
         {| result := Returned (set_fetched state size (time_Now env 0));
            events := [EvGetSTH (URL state)]; seen := 0 |}
| path_unchanged size :
    client_New (URL state) = None ->
    GetSTH env = Ok size ->
    LastFetched state <> 0 ->
    size = LastFetched state ->
    path s env state
         {| result := Returned state;
            events := [EvGetSTH (URL state)]; seen := 0 |}
| path_no_range size err :
    client_New (URL state) = None ->
    GetSTH env = Ok size ->
    LastFetched state <> 0 -> size <> LastFetched state ->
    GetRawEntries env (int64 (uint64 (LastFetched state + 1)))
                  (int64 size) = Fail err ->
    path s env state
         {| result := Returned state;
            events := [EvGetSTH (URL state); request_of state size];
            seen := 0 |}
| path_advance size entries o w :
    client_New (URL state) = None ->
    GetSTH env = Ok size ->
    LastFetched state <> 0 -> size <> LastFetched state ->
    GetRawEntries env (int64 (uint64 (LastFetched state + 1)))
                  (int64 size) = Ok entries ->
    process_entries s env (int64 (uint64 (LastFetched state + 1))) 0
      entries
      {| calls := 0;
         trace := [EvGetSTH (URL state); request_of state size];
         entriesSeen := 0 |} = (o, w) ->
    path s env state
         {| result :=
              match o with
              | Some o => o
              | None =>
                  Returned (set_fetched state size (time_Now env (calls w)))
              end;
            events := trace w; seen := entriesSeen w |}.

End Observations.

(** ** What the outside answers to one run *)

Record RunEnv := {
  (** [os.Getenv("CERT_MONITOR_BUCKET")]. *)
  os_Getenv_bucket : string;
  (** [config.LoadDefaultConfig]. *)
  config_LoadDefaultConfig : option error;
  (** [s.s3.GetObject]: an error, or a response whose body reads in
      full or fails to. *)
  s3_GetObject : ObjectKey -> res (res string);
  (** [http.Get(loglist3.LogListURL)], in the same way. *)
  http_Get_LogListURL : res (res string);
  (** The answers to the task launched at each position. *)
  task_env : nat -> TaskEnv;
  (** [s.s3.PutObject] of the state file. *)
  PutObject_state : string -> option error;
  (** The scheduler.  When both the configuration and the catalog fail
      to load, which error [select] receives first; and at each turn of
      the collecting loop, which waiting sender [select] takes. *)
  select_config_error_first : bool;
  select_sender : nat -> nat
}.

(** ** [Handler] *)

Section Handler.
Context {RE : RegexpLib} {CT : CTLib} {CD : CodecLib}.

(** config.go, [loadConfig]. *)
Definition loadConfig (env : RunEnv) : res Config :=
  match s3_GetObject env ConfigKey with
  | Fail err => Fail err
  | Ok Body =>
      match Body with
      | Fail err => Fail err
      | Ok body => toml_Unmarshal body
      end
  end.

Definition fetchLogState (env : RunEnv)
  : res (option (gmap string LogState)) :=
  match s3_GetObject env logStateKey with
  | Fail err => Fail err
  | Ok Body =>
      match Body with
      | Fail err => Fail err
      | Ok body => json_Decode_states body
      end
  end.

Definition fetchLogList (env : RunEnv) : res loglist3.LogList :=
  match http_Get_LogListURL env with
  | Fail err => Fail (FetchLogListErr err)
  | Ok Body =>
      match Body with
      | Fail err => Fail err
      | Ok llData => loglist3_NewFromJSON llData
      end
  end.

(** The three loading goroutines and the loop of three receives.  A
    failed state load is replaced by [make(LogStates)]; a failed
    configuration or catalog load sends on [errorChan] before
    anything else, so that the loop cannot end without receiving it. *)
Definition load_all (env : RunEnv)
  : res (Config * option (gmap string LogState) * loglist3.LogList) :=
  let states :=
    match fetchLogState env with
    | Fail _ => Some ∅
    | Ok states => states
    end in
  match loadConfig env, fetchLogList env with
  | Ok conf, Ok logList => Ok (conf, states, logList)
  | Fail err, Ok _ => Fail (LoadConfigErr err)
  | Ok _, Fail err => Fail (FetchLogListErr err)
  | Fail err1, Fail err2 =>
      if select_config_error_first env
      then Fail (LoadConfigErr err1)
      else Fail (FetchLogListErr err2)
  end.

(** [for i, patternStr := range s.conf.Patterns]. *)
Fixpoint compile_patterns (patternStrs : list string)
  : res (list Regexp) :=
  match patternStrs with
  | [] => Ok []
  | patternStr :: rest =>
      match regexp_Compile patternStr with
      | None => Fail (CompilePatternErr patternStr)
      | Some r =>
          match compile_patterns rest with
          | Fail err => Fail err
          | Ok rs => Ok (r :: rs)
          end
      end
  end.

(** A launched goroutine: the key [log.URL] its state was looked up
    under, whether the state is the object the map holds (so that
    what the task writes to it is written in the map) or a new one,
    and the state. *)
Record Task := {
  task_key : string;
  task_shared : bool;
  task_state : LogState
}.

Definition launch_log (states : option (gmap string LogState))
    (operator : loglist3.Operator) (log : loglist3.Log) : list Task :=
  if bool_decide (loglist3.State log ≠ loglist3.UsableLogStatus) then []
  else
    match states ≫= (fun m => m !! loglist3.URL log) with
    | Some state =>
        [ {| task_key := loglist3.URL log; task_shared := true;
             task_state := state |} ]
    | None =>
        [ {| task_key := loglist3.URL log; task_shared := false;
             task_state :=
               {| URL := loglist3.URL log;
                  Operator := loglist3.Name operator;
                  Description := loglist3.Description log;
                  LastFetched := 0;
                  LastFetchedTime := zero_time |} |} ]
    end.

(** The two loops over operators and their logs. *)
Definition launch (states : option (gmap string LogState))
    (logList : loglist3.LogList) : list Task :=
  loglist3.Operators logList ≫= fun operator =>
  loglist3.Logs operator ≫= launch_log states operator.

(** [select] among the goroutines that wait to send: the scheduler's
    number picks one, which leaves the waiting list. *)
Definition receive {A : Type} (k : nat) (pending : list A)
  : option (A * list A) :=
  let j := (k mod length pending)%nat in
  match pending !! j with
  | Some x => Some (x, delete j pending)
  | None => None
  end.

(** [for i := 0; i < logCount; i++ { select ... }], with
    [remaining = logCount - i]. *)
Fixpoint collect (sched : nat -> nat) (i remaining : nat)
    (pending : list (Task * TaskRun))
    (states : option (gmap string LogState))
  : outcome (option (gmap string LogState)) :=
  match remaining with
  | O => Returned states
  | S remaining' =>
      match receive (sched i) pending with
      | None => Panicked               (* nobody is left to send *)
      | Some ((t, r), pending') =>
          match result r with
          | Returned state =>
              match states with
              | None => Panicked       (* assignment to entry in nil map *)
              | Some m =>
                  let m := if task_shared t
                           then <[task_key t := state]> m else m in
                  collect sched (S i) remaining' pending'
                          (Some (<[URL state := state]> m))
              end
          | Failed err => Failed err
          | Panicked => Panicked
          end
      end
  end.

Record Run := {
  run_result : outcome unit;
  run_events : list Event
}.

Definition run_tasks (s : server) (env : RunEnv) (tasks : list Task)
  : list (Task * TaskRun) :=
  imap (fun i t => (t, processLog s (task_env env i) (task_state t))) tasks.

Definition task_events (runs : list (Task * TaskRun)) : list Event :=
  concat (map (fun tr => events (snd tr)) runs).

(** From the launch of the tasks to the write of the state file. *)
Definition sync_and_persist (s : server) (env : RunEnv)
    (states : option (gmap string LogState))
    (logList : loglist3.LogList) : Run :=
  let tasks := launch states logList in
  let logCount := length tasks in
  let runs := run_tasks s env tasks in
  let evs := task_events runs in
  match collect (select_sender env) 0 logCount runs states with
  | Failed err => {| run_result := Failed err; run_events := evs |}
  | Panicked => {| run_result := Panicked; run_events := evs |}
  | Returned states =>
      match json_Marshal_states states with
      | Fail err =>
          {| run_result := Failed (MarshalStatesErr err);
             run_events := evs |}
      | Ok statesTxt =>
          match PutObject_state env statesTxt with
          | Some err =>
              {| run_result := Failed (PutStateErr err);
                 run_events :=
                   evs ++ [EvPutObject logStateKey statesTxt false] |}
          | None =>
              {| run_result := Returned tt;
                 run_events :=
                   evs ++ [EvPutObject logStateKey statesTxt true] |}
          end
      end
  end.

Definition Handler (env : RunEnv) : Run :=
  if bool_decide (os_Getenv_bucket env = EmptyString) then
    {| run_result := Failed EnvNotSet; run_events := [] |}
  else
    match config_LoadDefaultConfig env with
    | Some err => {| run_result := Failed err; run_events := [] |}
    | None =>
        match load_all env with
        | Fail err => {| run_result := Failed err; run_events := [] |}
        | Ok (conf, states, logList) =>
            match compile_patterns (Patterns conf) with
            | Fail err =>
                {| run_result := Failed err; run_events := [] |}
            | Ok patterns =>
                sync_and_persist
                  {| bucket := os_Getenv_bucket env; conf := conf;
                     patterns := patterns |}
                  env states logList
            end
        end
    end.

End Handler.

(** ** The bucket *)

(** The content of the bucket after the writes of a trace. *)
Fixpoint bucket_after (evs : list Event)
    (objects : ObjectKey -> option string) : ObjectKey -> option string :=
  match evs with
  | [] => objects
  | EvPutObject key body true :: rest =>
      bucket_after rest
        (fun k => if bool_decide (k = key) then Some body else objects k)
  | _ :: rest => bucket_after rest objects
  end.

(** The log an event is a call to, if it is one. *)
Definition event_url (ev : Event) : option string :=
  match ev with
  | EvGetSTH url | EvGetRawEntries url _ _ => Some url
  | _ => None
  end.

(** The key an event writes, if it is a write. *)
Definition event_key (ev : Event) : option ObjectKey :=
  match ev with
  | EvPutObject key _ _ => Some key
  | _ => None
  end.

Definition is_cert_key (key : ObjectKey) : Prop :=
  match key with CertKey _ _ _ => True | _ => False end.

(** ** The loop, entry by entry *)

Section EntryCases.
Context {RE : RegexpLib} {CT : CTLib} {CD : CodecLib}.

(** What one turn of the loop over the entries can do with the entry
    it is given: the outcome it leaves [processLog] with, if any, and
    the events it adds. *)
Inductive entry_case (s : server) (env : TaskEnv) (index : Z)
    (entry : LeafEntry)
  : option (outcome LogState) -> list Event -> Prop :=
| ec_pass :
    entry_hit s index entry = None ->
    entry_case s env index entry None [EvDecode index entry]
| ec_nil_entry :
    entry_hit s index entry = None ->
    (ct_LogEntryFromLeaf index entry).1 = None ->
    x509_IsFatal (ct_LogEntryFromLeaf index entry).2 = false ->
    entry_case s env index entry (Some Panicked) [EvDecode index entry]
| ec_marshal name err :
    entry_hit s index entry = Some name ->
    json_Marshal_entry entry = Fail err ->
    entry_case s env index entry (Some (Failed err)) [EvDecode index entry]
| ec_refused name err t b :
    entry_hit s index entry = Some name ->
    entry_case s env index entry (Some (Failed (S3PutObjectErr err)))
      [EvDecode index entry;
       EvPutObject (CertKey t b name) (body_of entry) false]
| ec_stored name t b :
    entry_hit s index entry = Some name ->
    entry_case s env index entry None
      [EvDecode index entry;
       EvPutObject (CertKey t b name) (body_of entry) true].

End EntryCases.

(** ** The catalog and the map of states *)

(** The logs of the catalog, operator by operator, that are usable. *)
Definition usable_logs (logList : loglist3.LogList) : list loglist3.Log :=
  filter (fun log => loglist3.State log = loglist3.UsableLogStatus)
         (loglist3.Operators logList ≫= loglist3.Logs).

(** Every state of the map is stored under its own URL. *)
Definition keyed_by_url (m : gmap string LogState) : Prop :=
  forall k state, m !! k = Some state -> URL state = k.

(** ** The state file from run to run *)

Section Persistence.
Context {RE : RegexpLib} {CT : CTLib} {CD : CodecLib}.

(** What the state file holds is given as the map its text decodes to:
    [None] is the nil map, which the text null decodes to, and a file
    that was never written holds the empty map. *)

(** The map a run starts from, as [Handler] has it: the one of the
    state file, or [make(LogStates)] when the file does not load. *)
Definition starting_states (env : RunEnv)
  : option (gmap string LogState) :=
  match fetchLogState env with
  | Fail _ => Some ∅
  | Ok states => states
  end.

(** The tasks a run launches, when it gets as far. *)
Definition launched (env : RunEnv) : list Task :=
  match load_all env with
  | Ok (_, states, logList) => launch states logList
  | Fail _ => []
  end.

(** The map the collecting loop of a run ends with, when the run gets
    to the end of the loop: [states] as [Handler] marshals it. *)
Definition collected (env : RunEnv)
  : option (option (gmap string LogState)) :=
  if bool_decide (os_Getenv_bucket env = EmptyString) then None
  else
    match config_LoadDefaultConfig env with
    | Some _ => None
    | None =>
        match load_all env with
        | Fail _ => None
        | Ok (conf, states, logList) =>
            match compile_patterns (Patterns conf) with
            | Fail _ => None
            | Ok patterns =>
                let s := {| bucket := os_Getenv_bucket env; conf := conf;
                            patterns := patterns |} in
                let tasks := launch states logList in
                match collect (select_sender env) 0 (length tasks)
                              (run_tasks s env tasks) states with
                | Returned states => Some states
                | _ => None
                end
            end
        end
    end.

(** What the state file holds after a run, from what it held before:
    the run that ends well has written the map it collected, and no
    other run has written the file. *)
Definition file_after (env : RunEnv)
    (file : option (gmap string LogState))
  : option (gmap string LogState) :=
  match run_result (Handler env), collected env with
  | Returned _, Some states => states
  | _, _ => file
  end.

Fixpoint files_over (envs : list RunEnv)
    (file : option (gmap string LogState))
  : list (option (gmap string LogState)) :=
  match envs with
  | [] => []
  | env :: rest =>
      file_after env file :: files_over rest (file_after env file)
  end.

(** The watermark the file holds for a log: 0 when it holds none. *)
Definition watermark (k : string) (file : option (gmap string LogState))
  : Z :=
  match file ≫= (fun m => m !! k) with
  | Some state => LastFetched state
  | None => 0
  end.

(** The run starts from the map the file holds: the file loads, or
    does not load and holds the empty map. *)
Definition starts_from (env : RunEnv)
    (file : option (gmap string LogState)) : Prop :=
  starting_states env = file.

(** No log reports to its task a size below the watermark the file
    holds for it and then answers the range request that the task
    makes from that watermark. *)
Definition never_below (env : RunEnv)
    (file : option (gmap string LogState)) : Prop :=
  forall i t size,
    launched env !! i = Some t ->
    GetSTH (task_env env i) = Ok size ->
    watermark (task_key t) file <= size
    \/ (watermark (task_key t) file <> 0
        /\ exists err,
             GetRawEntries (task_env env i)
               (int64 (uint64 (watermark (task_key t) file + 1)))
               (int64 size)
             = Fail err).

(** Runs each of which starts from what the run before it left in the
    file, on logs that do not answer below the watermark. *)
Fixpoint steady (envs : list RunEnv)
    (file : option (gmap string LogState)) : Prop :=
  match envs with
  | [] => True
  | env :: rest =>
      starts_from env file
      /\ never_below env file
      /\ steady rest (file_after env file)
  end.

End Persistence.

(** ** cmd/json-to-cert *)

Module JsonToCert.

(** The libraries the tool prints with. *)
Class PrintLib := {
  StdCertificate : Type;
  (** [x509.ParseCertificate(ctcert.Raw)] of crypto/x509. *)
  x509_ParseCertificate : Certificate -> res StdCertificate;
  (** [certinfo.CertificateText(cert)]. *)
  certinfo_CertificateText : StdCertificate -> res string;
  (** [json.MarshalIndent(cert, ...)]; [None] is the nil pointer. *)
  json_MarshalIndent : option Certificate -> res string;
  (** [pem.EncodeToMemory] of the block made of [cert.Raw]. *)
  pem_EncodeToMemory : Certificate -> string;
  (** [json.NewDecoder(f).Decode(&rawEntry)] on a file read in full. *)
  json_Decode_leaf : string -> res LeafEntry
}.

(** The command line after [flag.Parse], and the files. *)
Record ToolEnv := {
  (** [*format]; "text" when the flag is not given. *)
  flag_format : string;
  (** [flag.Args()]. *)
  flag_Args : list string;
  (** [os.Open]: an error, or a file that reads in full or fails to. *)
  os_Open : string -> res (res string)
}.

(** Why [log.Fatal] ends the tool. *)
Inductive fatal :=
| InvalidFormat               (** "invalid -format flag" *)
| Usage                       (** "usage: %s <cert.json>" *)
| FatalError (err : error).   (** [log.Fatal(err)] *)

(** How the tool ends: [main] returns, [log.Fatal] exits, or a nil
    pointer is read. *)
Inductive exit :=
| Exit0
| Fatal (why : fatal)
| NilPanic.

Record ToolRun := {
  tool_exit : exit;
  stdout : list string;       (* the lines printed by fmt.Println *)
  opened : list string        (* the paths given to os.Open *)
}.

Inductive Format := FormatText | FormatJson | FormatPem.

(** The [switch *format]. *)
Definition select_printer (format : string) : option Format :=
  if bool_decide (format = "text") then Some FormatText
  else if bool_decide (format = "json") then Some FormatJson
  else if bool_decide (format = "pem") then Some FormatPem
  else None.

Section Tool.
Context {CT : CTLib} {PL : PrintLib}.

(** [printText], [printJson] and [printPem] on a pointer that may be
    nil: the exit it forces, if any, and the line it prints. *)
Definition printText (ctcert : option Certificate)
  : option exit * list string :=
  match ctcert with
  | None => (Some NilPanic, [])           (* ctcert.Raw on nil *)
  | Some ctcert =>
      match x509_ParseCertificate ctcert with
      | Fail err => (Some (Fatal (FatalError err)), [])
      | Ok cert =>
          match certinfo_CertificateText cert with
          | Fail err => (Some (Fatal (FatalError err)), [])
          | Ok txt => (None, [txt])
          end
      end
  end.

Definition printJson (cert : option Certificate)
  : option exit * list string :=
  match json_MarshalIndent cert with
  | Fail err => (Some (Fatal (FatalError err)), [])
  | Ok j => (None, [j])
  end.

Definition printPem (cert : option Certificate)
  : option exit * list string :=
  match cert with
  | None => (Some NilPanic, [])           (* cert.Raw on nil *)
  | Some cert => (None, [pem_EncodeToMemory cert])
  end.

Definition printFunc (f : Format) (cert : option Certificate)
  : option exit * list string :=
  match f with
  | FormatText => printText cert
  | FormatJson => printJson cert
  | FormatPem => printPem cert
  end.

Definition finish (path : string) (p : option exit * list string)
  : ToolRun :=
  {| tool_exit := match p.1 with Some e => e | None => Exit0 end;
     stdout := p.2; opened := [path] |}.

Definition main (env : ToolEnv) : ToolRun :=
  match select_printer (flag_format env) with
  | None =>
      {| tool_exit := Fatal InvalidFormat; stdout := []; opened := [] |}
  | Some f =>
      match flag_Args env with
      | [] => {| tool_exit := Fatal Usage; stdout := []; opened := [] |}
      | path :: _ =>
          let stop err :=
            {| tool_exit := Fatal (FatalError err); stdout := [];
               opened := [path] |} in
          match os_Open env path with
          | Fail err => stop err
          | Ok file =>
              match file with
              | Fail err => stop err
              | Ok txt =>
                  match json_Decode_leaf txt with
                  | Fail err => stop err
                  | Ok rawEntry =>
                      match ct_LogEntryFromLeaf 0 rawEntry with
                      | (_, Some err) => stop err
                      | (None, None) =>
                          {| tool_exit := NilPanic; stdout := [];
                             opened := [path] |}
                      | (Some logEntry, None) =>
                          match X509Cert logEntry, Precert logEntry with
                          | Some cert, _ => finish path (printFunc f (Some cert))
                          | None, Some pre =>
                              finish path (printFunc f (TBSCertificate pre))
                          | None, None => finish path (None, [])
                          end
                      end
                  end
              end
          end
      end
  end.

End Tool.

End JsonToCert.

(** ** Instances for closed examples *)

(** A catalog with one usable log and one retired log. *)
Definition example_catalog : loglist3.LogList := {|
  loglist3.Operators :=
    [ {| loglist3.Name := "op";
         loglist3.Logs :=
           [ {| loglist3.Description := "an example log";
                loglist3.URL := "https://log.example/";
                loglist3.State := loglist3.UsableLogStatus |};
             {| loglist3.Description := "a retired log";
                loglist3.URL := "https://old.example/";
                loglist3.State := loglist3.RetiredLogStatus |} ] |} ]
|}.

(** A decoder for examples.  The leaf input is read as the one DNS name
    of the certificate, and the extra data says how the decoding ends:
    "fatal" gives no entry and a fatal error, "nonfatal" gives the
    entry and an error that is not fatal, "precert" gives a
    precertificate, anything else a certificate and no error.  The URL
    "bad" builds no client, and the one catalog text is "catalog". *)
Definition example_ct : CTLib := {|
  client_New := fun url =>
    if bool_decide (url = "bad") then Some (LibError "parse") else None;
  ct_LogEntryFromLeaf := fun _ entry =>
    let cert := {| DNSNames := [LeafInput entry] |} in
    if bool_decide (ExtraData entry = "fatal") then
      (None, Some (LibError "fatal"))
    else if bool_decide (ExtraData entry = "nonfatal") then
      (Some {| X509Cert := Some cert; Precert := None |},
       Some (LibError "nonfatal"))
    else if bool_decide (ExtraData entry = "precert") then
      (Some {| X509Cert := None;
               Precert := Some {| TBSCertificate := Some cert |} |}, None)
    else (Some {| X509Cert := Some cert; Precert := None |}, None);
  x509_IsFatal := fun err =>
    match err with
    | None => false
    | Some (LibError "nonfatal") => false
    | Some _ => true
    end;
  loglist3_NewFromJSON := fun llData =>
    if bool_decide (llData = "catalog") then Ok example_catalog
    else Fail (LibError "syntax")
|}.

Definition example_conf : Config :=
  {| Domains := ["google.com"]; Patterns := []; IncludePreCerts := false |}.

Definition example_state (last : Z) : LogState := {|
  URL := "https://log.example/"; Operator := "op";
  Description := "an example log";
  LastFetched := last; LastFetchedTime := 7
|}.

(** A codec for examples.  The body of an artifact is the leaf input.
    Three state files are read: an empty object, the text null, and a
    file with the example log at the watermark 10.  Two configurations
    are read: "google" watches google.com, and "badpattern" has, next
    to it, a pattern that compiles and one that does not. *)
Definition example_codec : CodecLib := {|
  json_Marshal_entry := fun entry => Ok (LeafInput entry);
  json_Marshal_states := fun _ => Ok "states";
  json_Decode_states := fun body =>
    if bool_decide (body = "{}") then Ok (Some ∅)
    else if bool_decide (body = "null") then Ok None
    else if bool_decide (body = "at10") then
      Ok (Some {[ "https://log.example/" := example_state 10 ]})
    else Fail (LibError "syntax");
  toml_Unmarshal := fun body =>
    if bool_decide (body = "google") then Ok example_conf
    else if bool_decide (body = "badpattern") then
      Ok {| Domains := ["google.com"]; Patterns := ["www"; "("];
            IncludePreCerts := false |}
    else Fail (LibError "syntax")
|}.

(** A rule set that watches google.com, without patterns. *)
Definition example_server : @server suffix_engine :=
  {| bucket := "bucket"; conf := example_conf; patterns := [] |}.

Definition leaf (name kind : string) : LeafEntry :=
  {| LeafInput := name; ExtraData := kind |}.

(** A log whose head has the given size and which answers every range
    request with the given batch; every write succeeds. *)
Definition example_env (size : Z) (batch : list LeafEntry) : TaskEnv := {|
  GetSTH := Ok size;
  GetRawEntries := fun _ _ => Ok batch;
  PutObject := fun _ _ _ => None;
  time_Now := fun n => 1000 + Z.of_nat n;
  rand_Read := fun _ => "r"
|}.

(** The same log in front of a store that refuses every write. *)
Definition refusing_env (size : Z) (batch : list LeafEntry) : TaskEnv := {|
  GetSTH := Ok size;
  GetRawEntries := fun _ _ => Ok batch;
  PutObject := fun _ _ _ => Some (LibError "unavailable");
  time_Now := fun n => 1000 + Z.of_nat n;
  rand_Read := fun _ => "r"
|}.

(** A log that cannot be reached. *)
Definition unreachable_env : TaskEnv := {|
  GetSTH := Fail (LibError "timeout");
  GetRawEntries := fun _ _ => Fail (LibError "timeout");
  PutObject := fun _ _ _ => None;
  time_Now := fun n => 1000 + Z.of_nat n;
  rand_Read := fun _ => "r"
|}.

(** A log that holds the given entries at the indices 0, 1, ...  Its
    head has their number as its size.  A range request names its
    first and its last index, as get-entries of RFC 6962 does, and is
    answered with the entries the log holds in that range; it fails
    when the log holds none of them. *)
Definition serving_log (held : list LeafEntry) : TaskEnv := {|
  GetSTH := Ok (Z.of_nat (length held));
  GetRawEntries := fun start end_ =>
    if (start <? 0) || (end_ <? start)
       || (Z.of_nat (length held) <=? start)
    then Fail (LibError "bad request")
    else Ok (take (Z.to_nat (end_ - start + 1))
                  (drop (Z.to_nat start) held));
  PutObject := fun _ _ _ => None;
  time_Now := fun n => 1000 + Z.of_nat n;
  rand_Read := fun _ => "r"
|}.

(** Fifteen entries, of which those at the indices 10 and 12 match the
    rule google.com. *)
Definition held15 : list LeafEntry :=
  [ leaf "a0" "cert"; leaf "a1" "cert"; leaf "a2" "cert"; leaf "a3" "cert"; leaf "a4" "cert";
    leaf "a5" "cert"; leaf "a6" "cert"; leaf "a7" "cert"; leaf "a8" "cert"; leaf "a9" "cert";
    leaf "mail.google.com" "cert"; leaf "a11" "cert"; leaf "www.google.com" "cert";
    leaf "a13" "cert"; leaf "a14" "cert" ].

(** A run with the bucket set, the catalog served, the given
    configuration text and state file, and the given answers to every
    task. *)
Definition example_run (config_body : string)
    (state_file : res (res string)) (task : TaskEnv) : RunEnv := {|
  os_Getenv_bucket := "bucket";
  config_LoadDefaultConfig := None;
  s3_GetObject := fun key =>
    match key with
    | ConfigKey => Ok (Ok config_body)
    | logStateKey => state_file
    | CertKey _ _ _ => Fail (LibError "NoSuchKey")
    end;
  http_Get_LogListURL := Ok (Ok "catalog");
  task_env := fun _ => task;
  PutObject_state := fun _ => None;
  select_config_error_first := true;
  select_sender := fun _ => 0%nat
|}.

(** The state of the retired log of the catalog. *)
Definition retired_state (last : Z) : LogState := {|
  URL := "https://old.example/"; Operator := "op";
  Description := "a retired log";
  LastFetched := last; LastFetchedTime := 7
|}.

(** A codec that reads more state files.  "at15" is the file that the
    advance from "at10" to the size 15 leaves; "stray" holds, under
    the URL of the example log, a state whose own URL is that of the
    retired log, next to the state of the retired log. *)
Definition example_files : CodecLib := {|
  json_Marshal_entry := fun entry => Ok (LeafInput entry);
  json_Marshal_states := fun _ => Ok "states";
  json_Decode_states := fun body =>
    if bool_decide (body = "at10") then
      Ok (Some {[ "https://log.example/" := example_state 10 ]})
    else if bool_decide (body = "at15") then
      Ok (Some {[ "https://log.example/" :=
                    {| URL := "https://log.example/"; Operator := "op";
                       Description := "an example log";
                       LastFetched := 15; LastFetchedTime := 1000 |} ]})
    else if bool_decide (body = "stray") then
      Ok (Some (<[ "https://log.example/" := retired_state 1 ]>
                  {[ "https://old.example/" := retired_state 20 ]}))
    else Fail (LibError "syntax");
  toml_Unmarshal := fun body =>
    if bool_decide (body = "google") then Ok example_conf
    else Fail (LibError "syntax")
|}.

(** Printing libraries for examples.  A file is read as the leaf input
    of an entry; the file "www.google.com" is the entry decoded with an
    error that is not fatal, the file "pre.example" a precertificate,
    and the file "broken" does not decode. *)
Definition example_print : JsonToCert.PrintLib := {|
  JsonToCert.StdCertificate := Certificate;
  JsonToCert.x509_ParseCertificate := fun c => Ok c;
  JsonToCert.certinfo_CertificateText := fun c =>
    Ok (String.concat "," (DNSNames c));
  JsonToCert.json_MarshalIndent := fun c =>
    match c with
    | Some c => Ok (String.concat "," (DNSNames c))
    | None => Ok "null"
    end;
  JsonToCert.pem_EncodeToMemory := fun c => String.concat "," (DNSNames c);
  JsonToCert.json_Decode_leaf := fun txt =>
    if bool_decide (txt = "broken") then Fail (LibError "syntax")
    else if bool_decide (txt = "www.google.com") then
      Ok (leaf "www.google.com" "nonfatal")
    else if bool_decide (txt = "pre.example") then
      Ok (leaf "pre.example" "precert")
    else Ok (leaf txt "cert")
|}.

(** A command line with one file, which holds the given text. *)
Definition example_tool (format : string) (content : string)
  : JsonToCert.ToolEnv := {|
  JsonToCert.flag_format := format;
  JsonToCert.flag_Args := ["cert.json"];
  JsonToCert.os_Open := fun path =>
    if bool_decide (path = "cert.json") then Ok (Ok content)
    else Fail (LibError "no such file")
|}.

(** ** Theorems *)

Section StringFacts.

Lemma app_String (a : Ascii.ascii) (p s : string) :
  String a p +:+ s = String a (p +:+ s).
Proof. reflexivity. Qed.

Lemma slice_from_app (p s : string) :
  slice_from (String.length p) (p +:+ s) = s.
Proof. induction p as [|a p IH]; [done|]. exact IH. Qed.

Lemma string_length_app (p s : string) :
  String.length (p +:+ s) = (String.length p + String.length s)%nat.
Proof.
  induction p as [|a p IH]; [done|].
  rewrite app_String. cbn. by rewrite IH.
Qed.

Lemma app_assoc_string (p q r : string) :
  (p +:+ q) +:+ r = p +:+ q +:+ r.
Proof.
  induction p as [|a p IH]; [done|].
  by rewrite !app_String, IH.
Qed.

Lemma slice_from_split (n : nat) (s : string) :
  (n <= String.length s)%nat ->
  exists p, s = p +:+ slice_from n s /\ String.length p = n.
Proof.
  revert s. induction n as [|n IH]; intros s Hn.
  - exists EmptyString. by destruct s.
  - destruct s as [|a s]; cbn in Hn; [lia|].
    destruct (IH s) as (p & Hp & Hl); [lia|].
    exists (String a p). rewrite app_String. cbn.
    split; [by rewrite <- Hp|by rewrite Hl].
Qed.

Lemma HasSuffix_spec (s suffix : string) :
  HasSuffix s suffix = true <-> exists p, s = p +:+ suffix.
Proof.
  unfold HasSuffix. rewrite andb_true_iff, Nat.leb_le, bool_decide_eq_true.
  split.
  - intros [Hle Heq].
    destruct (slice_from_split (String.length s - String.length suffix) s)
      as (p & Hp & _); [lia|].
    exists p. by rewrite Heq in Hp.
  - intros [p ->]. rewrite string_length_app. split; [lia|].
    replace (String.length p + String.length suffix
             - String.length suffix)%nat with (String.length p) by lia.
    apply slice_from_app.
Qed.

End StringFacts.

Section RuleEngineFacts.
Context {RE : RegexpLib}.

Lemma domainMatches_spec (n R : string) :
  domainMatches n R = true <-> n = R \/ exists p, n = p +:+ "." +:+ R.
Proof.
  unfold domainMatches.
  destruct (HasSuffix n R) eqn:Hs.
  - destruct (bool_decide (n = R)) eqn:He; cbn.
    + apply bool_decide_eq_true in He. tauto.
    + apply bool_decide_eq_false in He.
      destruct (HasSuffix n ("." +:+ R)) eqn:Hd.
      * apply HasSuffix_spec in Hd. tauto.
      * split; [done|]. intros [?|Hp]; [done|].
        apply HasSuffix_spec in Hp. congruence.
  - split; [done|]. intros [->|[p ->]].
    + assert (HasSuffix R R = true) by (apply HasSuffix_spec; by exists EmptyString).
      congruence.
    + assert (HasSuffix (p +:+ "." +:+ R) R = true); [|congruence].
      apply HasSuffix_spec. exists (p +:+ ".").
      by rewrite app_assoc_string.
Qed.

Lemma match_domains_Some (n : string) (ds : list string) :
  is_Some (match_domains n ds) <->
  exists R, R ∈ ds /\ domainMatches n R = true.
Proof.
  induction ds as [|d ds IH]; cbn.
  - split; [by intros [? ?]|]. intros (R & HR & _). by apply elem_of_nil in HR.
  - destruct (domainMatches n d) eqn:Hd.
    + split; [|by eauto]. intros _. exists d. split; [left|done].
    + rewrite IH. split.
      * intros (R & HR & HM). exists R. split; [by right|done].
      * intros (R & HR & HM). apply elem_of_cons in HR as [->|HR];
          [congruence|eauto].
Qed.



Lemma match_patterns_Some (n : string) (ps : list Regexp) :
  is_Some (match_patterns n ps) <->
  exists r, r ∈ ps /\ regexp_Match r n = true.
Proof.
  induction ps as [|r ps IH]; cbn.
  - split; [by intros [? ?]|]. intros (r & Hr & _). by apply elem_of_nil in Hr.
  - destruct (regexp_Match r n) eqn:Hm.
    + split; [|by eauto]. intros _. exists r. split; [left|done].
    + rewrite IH. split.
      * intros (r' & Hr & HM). exists r'. split; [by right|done].
      * intros (r' & Hr & HM). apply elem_of_cons in Hr as [->|Hr];
          [congruence|eauto].
Qed.

Lemma match_names_true (s : server) (names : list string) :
  (match_names s names).1.1 = true <->
  exists n, n ∈ names /\ name_hits s n.
Proof.
  induction names as [|n names IH]; cbn.
  - split; [done|]. intros (n & Hn & _). by apply elem_of_nil in Hn.
  - assert (Hdom : is_Some (match_domains n (Domains (conf s))) <->
                   exists R, R ∈ Domains (conf s)
                     /\ (n = R \/ exists p, n = p +:+ "." +:+ R)).
    { rewrite match_domains_Some. split; intros (R & HR & HM); exists R;
        (split; [done|]); by apply domainMatches_spec. }
    pose proof (match_patterns_Some n (patterns s)) as Hpat.
    destruct (match_domains n (Domains (conf s))) as [rule|] eqn:Hd.
    { cbn. split; [|done]. intros _. exists n. split; [left|].
      left. apply Hdom. by eexists. }
    destruct (match_patterns n (patterns s)) as [rule|] eqn:Hp.
    { cbn. split; [|done]. intros _. exists n. split; [left|].
      right. apply Hpat. by eexists. }
    rewrite IH. split.
    + intros (n' & Hn' & Hh). exists n'. split; [by right|done].
    + intros (n' & Hn' & Hh). apply elem_of_cons in Hn' as [->|Hn'].
      * destruct Hh as [Hh|Hh].
        -- apply Hdom in Hh. by destruct Hh.
        -- apply Hpat in Hh. by destruct Hh.
      * eauto.
Qed.

(** C1: one name matches one domain rule exactly when it is the rule
    or ends with a dot followed by the rule; [nameMatches] reports a
    match exactly when some name of the certificate matches some
    domain rule in this sense or some compiled pattern; and
    evilgoogle.com does not match the rule google.com while
    www.google.com and google.com do. *)
Theorem C1_domain_rule_suffix_match :
  (forall n R : string,
      domainMatches n R = true <->
      n = R \/ exists p, n = p +:+ "." +:+ R)
  /\ (forall (s : server) (c : Certificate),
         (nameMatches s c).1.1 = true <->
         exists n, n ∈ DNSNames c /\ name_hits s n)
  /\ domainMatches "evilgoogle.com" "google.com" = false
  /\ domainMatches "www.google.com" "google.com" = true
  /\ domainMatches "google.com" "google.com" = true.
Proof.
  split; [exact domainMatches_spec|].
  split; [intros s c; apply match_names_true|].
  by vm_compute.
Qed.

End RuleEngineFacts.

(** *** The loop over the fetched entries *)

Section LoopFacts.
Context {RE : RegexpLib} {CT : CTLib} {CD : CodecLib}.

Lemma store_match_cases env entry name w :
  store_match_case env entry name w
    (store_match env entry name w).1 (store_match env entry name w).2
  /\ entriesSeen (store_match env entry name w).2 = entriesSeen w.
Proof.
  unfold store_match.
  destruct (json_Marshal_entry entry) as [jsonTxt|err] eqn:Hm; cbn.
  - assert (Hb : body_of entry = jsonTxt)
      by (unfold body_of; by rewrite Hm).
    rewrite <- Hb.
    destruct (PutObject env _ _ (body_of entry)) as [err|] eqn:Hp; cbn.
    + split; [|done]. eapply sm_put_fails; cbn; eauto.
    + split; [|done]. eapply sm_stored; cbn; eauto.
  - split; [|done]. by apply sm_marshal.
Qed.

Lemma process_entries_inv s env start entries :
  forall i w o w',
    process_entries s env start i entries w = (o, w') ->
    exists evs,
      trace w' = trace w ++ evs
      /\ Forall is_entry_event evs
      /\ (o = None \/ o = Some Panicked \/ exists e, o = Some (Failed e))
      /\ (Exists is_failed_artifact_write evs ->
          exists e, o = Some (Failed (S3PutObjectErr e))).
Proof.
  induction entries as [|entry rest IH]; intros i w o w' Hrun; cbn in Hrun.
  { inversion Hrun; subst. exists []. rewrite app_nil_r.
    repeat split; [constructor|by left|]. by intros ?%Exists_nil. }
  destruct (ct_LogEntryFromLeaf (int64 (start + i)) entry)
    as [logEntry err] eqn:Hdec.
  set (ev := EvDecode (int64 (start + i)) entry) in *.
  assert (Hnext : forall w1 evs1,
             trace w1 = trace w ++ ev :: evs1 ->
             Forall is_entry_event evs1 ->
             ~ Exists is_failed_artifact_write evs1 ->
             process_entries s env start (i + 1) rest w1 = (o, w') ->
             exists evs,
               trace w' = trace w ++ evs
               /\ Forall is_entry_event evs
               /\ (o = None \/ o = Some Panicked
                   \/ exists e, o = Some (Failed e))
               /\ (Exists is_failed_artifact_write evs ->
                   exists e, o = Some (Failed (S3PutObjectErr e)))).
  { intros w1 evs1 Htr Hall Hno Hrest.
    destruct (IH _ _ _ _ Hrest) as (evs & Htr' & Hall' & Hex & Hfail).
    exists (ev :: evs1 ++ evs). rewrite Htr', Htr, <- app_assoc. cbn.
    repeat split; [|done|].
    - constructor; [done|]. by apply Forall_app.
    - intros Hx. apply Exists_cons in Hx as [Hx|Hx]; [done|].
      apply Exists_app in Hx as [Hx|Hx]; [done|auto]. }
  assert (Hskip : process_entries s env start (i + 1) rest
                    (emit ev (count_entry w)) = (o, w') ->
                  exists evs,
                    trace w' = trace w ++ evs
                    /\ Forall is_entry_event evs
                    /\ (o = None \/ o = Some Panicked
                        \/ exists e, o = Some (Failed e))
                    /\ (Exists is_failed_artifact_write evs ->
                        exists e, o = Some (Failed (S3PutObjectErr e)))).
  { apply (Hnext (emit ev (count_entry w)) []);
      [done|constructor|by intros ?%Exists_nil]. }
  destruct (x509_IsFatal err); [auto|].
  destruct logEntry as [logEntry|].
  2:{ inversion Hrun; subst. exists [ev]. cbn.
      repeat split; [by repeat constructor|by right; left|].
      intros Hx. apply Exists_cons in Hx as [Hx|Hx]; [done|].
      by apply Exists_nil in Hx. }
  destruct (select_cert s logEntry) as [cert|]; [|auto].
  destruct (nameMatches s cert) as [[[] name] rule]; [|auto].
  destruct (store_match_cases env entry name (emit ev (count_entry w)))
    as [Hcase _].
  destruct (store_match env entry name (emit ev (count_entry w)))
    as [oe w1]. cbn in Hcase.
  inversion Hcase as [err' w2 Hm Htr|err' key w2 Hp Htr [t [b ->]]
                      |key w2 Htr [t [b ->]]]; subst; cbn in Htr.
  - inversion Hrun; subst. exists [ev].
    repeat split; [done|by repeat constructor|right; right; eauto|].
    intros Hx. apply Exists_cons in Hx as [Hx|Hx]; [done|].
    by apply Exists_nil in Hx.
  - inversion Hrun; subst.
    exists [ev; EvPutObject (CertKey t b name) (body_of entry) false].
    rewrite Htr, <- app_assoc.
    repeat split; [by repeat constructor|right; right; eauto|eauto].
  - apply (Hnext w1
                 [EvPutObject (CertKey t b name) (body_of entry) true]);
      [by rewrite Htr, <- app_assoc|by repeat constructor| |done].
    intros Hx. apply Exists_cons in Hx as [Hx|Hx]; [done|].
    by apply Exists_nil in Hx.
Qed.

Lemma decoded_app (evs1 evs2 : list Event) :
  decoded (evs1 ++ evs2) = decoded evs1 ++ decoded evs2.
Proof. apply omap_app. Qed.

Lemma artifacts_app (evs1 evs2 : list Event) :
  artifacts (evs1 ++ evs2) = artifacts evs1 ++ artifacts evs2.
Proof. apply omap_app. Qed.

(** However the loop ends, what it has decoded is a first part of
    the batch, under the indices the loop gives. *)
Lemma process_entries_decoded s env start entries :
  forall i w o w',
    process_entries s env start i entries w = (o, w') ->
    exists k, decoded (trace w')
              = decoded (trace w) ++ take k (indexed start i entries).
Proof.
  induction entries as [|entry rest IH]; intros i w o w' Hrun; cbn in Hrun.
  { inversion Hrun; subst. exists 0%nat. by rewrite app_nil_r. }
  destruct (ct_LogEntryFromLeaf (int64 (start + i)) entry)
    as [logEntry err] eqn:Hdec.
  set (ev := EvDecode (int64 (start + i)) entry) in *.
  assert (Hnext : forall w1,
             decoded (trace w1)
             = decoded (trace w) ++ [(int64 (start + i), entry)] ->
             process_entries s env start (i + 1) rest w1 = (o, w') ->
             exists k, decoded (trace w')
                       = decoded (trace w)
                         ++ take k (indexed start i (entry :: rest))).
  { intros w1 Hw1 Hrest. destruct (IH _ _ _ _ Hrest) as [k Hk].
    exists (S k). rewrite Hk, Hw1, <- app_assoc. done. }
  assert (Hhere : decoded (trace (emit ev (count_entry w)))
                  = decoded (trace w) ++ [(int64 (start + i), entry)]).
  { cbn. by rewrite decoded_app. }
  assert (Hstop : forall w1,
             decoded (trace w1)
             = decoded (trace w) ++ [(int64 (start + i), entry)] ->
             exists k, decoded (trace w1)
                       = decoded (trace w)
                         ++ take k (indexed start i (entry :: rest))).
  { intros w1 Hw1. exists 1%nat. rewrite Hw1. cbn. by rewrite take_0. }
  destruct (x509_IsFatal err); [by apply (Hnext _ Hhere)|].
  destruct logEntry as [logEntry|].
  2:{ inversion Hrun; subst. by apply Hstop. }
  destruct (select_cert s logEntry) as [cert|]; [|by apply (Hnext _ Hhere)].
  destruct (nameMatches s cert) as [[[] name] rule];
    [|by apply (Hnext _ Hhere)].
  destruct (store_match_cases env entry name (emit ev (count_entry w)))
    as [Hcase _].
  destruct (store_match env entry name (emit ev (count_entry w)))
    as [oe w1]. cbn [fst snd] in Hcase.
  assert (Hw1 : decoded (trace w1)
                = decoded (trace w) ++ [(int64 (start + i), entry)]).
  { inversion Hcase as [err' w2 Hm Htr|err' key w2 Hp Htr Hk
                        |key w2 Htr Hk]; subst; rewrite Htr;
      [done|destruct Hk as (t & b & ->)..];
      by rewrite decoded_app, Hhere, app_nil_r. }
  destruct oe as [e|].
  - inversion Hrun; subst. by apply Hstop.
  - by apply (Hnext _ Hw1).
Qed.

(** When the decoder keeps its contract and nothing fails to be
    stored, the loop goes through the whole batch: it counts and
    decodes every entry, in order, and stores the entries that hit. *)
Lemma process_entries_clean s env start entries :
  decoder_gives_entry -> marshal_works -> writes_succeed env ->
  forall i w,
    exists w',
      process_entries s env start i entries w = (None, w')
      /\ entriesSeen w' = (entriesSeen w + length entries)%nat
      /\ decoded (trace w') = decoded (trace w) ++ indexed start i entries
      /\ artifacts (trace w')
         = artifacts (trace w)
           ++ batch_artifacts s (indexed start i entries).
Proof.
  intros Hdecoder Hmarshal Hput.
  induction entries as [|entry rest IH]; intros i w.
  { exists w. cbn. by rewrite !app_nil_r, Nat.add_0_r. }
  cbn [process_entries indexed batch_artifacts omap list_omap fst snd].
  unfold entry_hit.
  pose proof (Hdecoder (int64 (start + i)) entry) as Hsome.
  destruct (ct_LogEntryFromLeaf (int64 (start + i)) entry)
    as [logEntry err] eqn:Hdec.
  set (ev := EvDecode (int64 (start + i)) entry) in *.
  assert (Hskip :
    exists w',
      process_entries s env start (i + 1) rest (emit ev (count_entry w))
      = (None, w')
      /\ entriesSeen w' = (entriesSeen w + length (entry :: rest))%nat
      /\ decoded (trace w')
         = decoded (trace w)
           ++ (int64 (start + i), entry) :: indexed start (i + 1) rest
      /\ artifacts (trace w')
         = artifacts (trace w)
           ++ batch_artifacts s (indexed start (i + 1) rest)).
  { destruct (IH (i + 1) (emit ev (count_entry w)))
      as (w' & Hrun & Hseen & Hdecs & Harts).
    exists w'. split; [done|].
    rewrite Hseen, Hdecs, Harts. cbn [emit count_entry trace entriesSeen].
    rewrite decoded_app, artifacts_app, <- !app_assoc. cbn.
    split; [lia|done]. }
  cbn in Hsome.
  destruct (x509_IsFatal err); [exact Hskip|].
  destruct Hsome as [le ->]; [done|].
  destruct (select_cert s le) as [cert|]; [|exact Hskip].
  unfold matched_name.
  destruct (nameMatches s cert) as [[[] name] rule]; [|exact Hskip].
  destruct (store_match_cases env entry name (emit ev (count_entry w)))
    as [Hcase Hsame].
  destruct (store_match env entry name (emit ev (count_entry w)))
    as [oe w1]. cbn in Hcase, Hsame.
  inversion Hcase as [err' w2 Hm Htr|err' key w2 Hp Htr [t [b ->]]
                      |key w2 Htr [t [b ->]]]; subst; cbn in Htr.
  - destruct (Hmarshal entry) as [? ?]. congruence.
  - by rewrite Hput in Hp.
  - destruct (IH (i + 1) w1) as (w' & Hrun & Hseen & Hdecs & Harts).
    exists w'. split; [done|].
    rewrite Hseen, Hdecs, Harts, Hsame, Htr.
    rewrite !decoded_app, !artifacts_app, <- !app_assoc. cbn.
    split; [lia|done].
Qed.

End LoopFacts.

(** *** [processLog] *)

Section ProcessLogFacts.
Context {RE : RegexpLib} {CT : CTLib} {CD : CodecLib}.

Lemma processLog_path s env state :
  path s env state (processLog s env state).
Proof.
  unfold processLog.
  destruct (client_New (URL state)) as [err|] eqn:Hnew;
    [by apply path_no_client|].
  destruct (GetSTH env) as [size|err] eqn:Hsth;
    [|by eapply path_no_size].
  case_bool_decide as Hzero; [by apply path_init|].
  case_bool_decide as Hsame; [by eapply path_unchanged|].
  cbn [emit calls trace entriesSeen app].
  destruct (GetRawEntries env _ _) as [entries|err] eqn:Hraw;
    [|by eapply path_no_range].
  destruct (process_entries s env _ 0 entries _) as [o w] eqn:Hloop.
  pose proof (path_advance s env state size entries o w
                Hnew Hsth Hzero Hsame Hraw Hloop) as Hp.
  by destruct o.
Qed.

Lemma processLog_returns s env state state' :
  result (processLog s env state) = Returned state' ->
  state' = state
  \/ exists size now,
       GetSTH env = Ok size /\ state' = set_fetched state size now.
Proof.
  destruct (processLog_path s env state)
    as [err Hn|err Hn Hs|size Hn Hs Hz|size Hn Hs Hz He
        |size err Hn Hs Hz Hne Hr|size entries o w Hn Hs Hz Hne Hr Hloop];
    cbn; intros Hres; try (inversion Hres; subst; eauto; fail).
  destruct (process_entries_inv _ _ _ _ _ _ _ _ Hloop)
    as (evs & _ & _ & Hexit & _).
  destruct Hexit as [->|[->|[e ->]]]; inversion Hres; subst; eauto.
Qed.

(** The state a task returns is the one it was given unless the size
    query answered, and the state was at 0 or the range request was
    answered too. *)
Lemma processLog_returns_how s env state state' :
  result (processLog s env state) = Returned state' ->
  state' = state
  \/ exists size now,
       GetSTH env = Ok size /\ state' = set_fetched state size now
       /\ (LastFetched state = 0
           \/ (LastFetched state <> 0
               /\ exists entries,
                    GetRawEntries env
                      (int64 (uint64 (LastFetched state + 1))) (int64 size)
                    = Ok entries)).
Proof.
  destruct (processLog_path s env state)
    as [err Hn|err Hn Hs|size Hn Hs Hz|size Hn Hs Hz He
        |size err Hn Hs Hz Hne Hr|size entries o w Hn Hs Hz Hne Hr Hloop];
    cbn; intros Hres; try (inversion Hres; subst; eauto 10; fail).
  destruct (process_entries_inv _ _ _ _ _ _ _ _ Hloop)
    as (evs & _ & _ & Hexit & _).
  destruct Hexit as [->|[->|[e ->]]]; inversion Hres; subst.
  right. eexists _, _. split; [done|]. split; [done|]. right. eauto.
Qed.

(** A task writes artifacts only, and the failed write of one ends the
    task with the error. *)
Lemma processLog_events s env state :
  Forall (fun ev => ~ is_state_write ev) (events (processLog s env state))
  /\ (Exists is_failed_artifact_write (events (processLog s env state)) ->
      exists e, result (processLog s env state)
                = Failed (S3PutObjectErr e)).
Proof.
  destruct (processLog_path s env state)
    as [err Hn|err Hn Hs|size Hn Hs Hz|size Hn Hs Hz He
        |size err Hn Hs Hz Hne Hr|size entries o w Hn Hs Hz Hne Hr Hloop];
    cbn;
    try (split;
         [repeat (constructor; [cbn; tauto|]); constructor
         |intros Hx; repeat (apply Exists_cons in Hx as [Hx|Hx];
                             [done|]); by apply Exists_nil in Hx]).
  destruct (process_entries_inv _ _ _ _ _ _ _ _ Hloop)
    as (evs & -> & Hall & _ & Hfail). cbn. split.
  - repeat (constructor; [cbn; tauto|]).
    eapply Forall_impl; [exact Hall|].
    intros ev Hev; destruct ev as [| | |[]]; cbn in *; tauto.
  - intros Hx. repeat (apply Exists_cons in Hx as [Hx|Hx]; [done|]).
    destruct (Hfail Hx) as [e ->]. eauto.
Qed.

(** The only range a task asks for starts one above its watermark. *)
Lemma processLog_requests s env state :
  Forall (fun ev => is_range_request ev ->
                    exists size, GetSTH env = Ok size
                                 /\ LastFetched state <> 0
                                 /\ ev = request_of state size)
         (events (processLog s env state)).
Proof.
  destruct (processLog_path s env state)
    as [err Hn|err Hn Hs|size Hn Hs Hz|size Hn Hs Hz He
        |size err Hn Hs Hz Hne Hr|size entries o w Hn Hs Hz Hne Hr Hloop];
    cbn; try (repeat (constructor; [cbn; by eauto|]); constructor; fail).
  destruct (process_entries_inv _ _ _ _ _ _ _ _ Hloop)
    as (evs & -> & Hall & _ & _). cbn.
  repeat (constructor; [cbn; by eauto|]).
  eapply Forall_impl; [exact Hall|].
    intros ev Hev; destruct ev as [| | |[]]; cbn in *; tauto.
Qed.

Lemma int64_uint64_succ (n : Z) :
  0 <= n < 2 ^ 63 - 1 -> int64 (uint64 (n + 1)) = n + 1.
Proof.
  intros Hn. unfold int64, uint64.
  change (2 ^ 64) with 18446744073709551616 in *.
  change (2 ^ 63) with 9223372036854775808 in *.
  rewrite (Z.mod_small (n + 1)) by lia.
  rewrite Z.mod_small by lia. lia.
Qed.

(** The advance of a task to which nothing fails. *)
Lemma processLog_advance_clean s env state size entries :
  decoder_gives_entry -> marshal_works -> writes_succeed env ->
  client_New (URL state) = None ->
  GetSTH env = Ok size ->
  LastFetched state <> 0 ->
  size <> LastFetched state ->
  GetRawEntries env (int64 (uint64 (LastFetched state + 1))) (int64 size)
  = Ok entries ->
  (exists n, result (processLog s env state)
             = Returned (set_fetched state size (time_Now env n)))
  /\ seen (processLog s env state) = length entries
  /\ decoded (events (processLog s env state))
     = indexed (int64 (uint64 (LastFetched state + 1))) 0 entries
  /\ artifacts (events (processLog s env state))
     = batch_artifacts s
         (indexed (int64 (uint64 (LastFetched state + 1))) 0 entries)
  /\ filter is_range_request (events (processLog s env state))
     = [request_of state size].
Proof.
  intros Hdec Hmar Hput Hnew Hsth Hnz Hne Hraw.
  unfold processLog. rewrite Hnew, Hsth.
  rewrite !bool_decide_eq_false_2 by done.
  cbn [emit calls trace entriesSeen app]. rewrite Hraw.
  match goal with
  | |- context [process_entries s env ?st 0 entries ?w0] =>
      destruct (process_entries_clean s env st entries Hdec Hmar Hput 0 w0)
        as (w' & Hrun & Hseen & Hdecs & Harts);
      pose proof (process_entries_inv _ _ _ _ _ _ _ _ Hrun)
        as (evs & Htr & Hall & _ & _)
  end.
  rewrite Hrun. cbn in *.
  split; [by eexists|]. split; [done|]. split; [done|]. split; [done|].
  rewrite Htr. cbn.
  replace (filter is_range_request evs) with (@nil Event); [done|].
  symmetry. clear -Hall. induction Hall as [|ev evs Hev _ IH]; [done|].
  destruct ev as [| | |[]]; cbn in Hev |- *; done.
Qed.

(** Whatever happens in the loop, a task that has been answered a
    batch returns no other state than the one at the size, and
    decodes nothing but a first part of the batch. *)
Lemma processLog_advance_any s env state size entries :
  client_New (URL state) = None ->
  GetSTH env = Ok size ->
  LastFetched state <> 0 ->
  size <> LastFetched state ->
  GetRawEntries env (int64 (uint64 (LastFetched state + 1))) (int64 size)
  = Ok entries ->
  (forall state',
      result (processLog s env state) = Returned state' ->
      exists n, state' = set_fetched state size (time_Now env n))
  /\ exists k,
      decoded (events (processLog s env state))
      = take k (indexed (int64 (uint64 (LastFetched state + 1))) 0 entries).
Proof.
  intros Hnew Hsth Hnz Hne Hraw.
  unfold processLog. rewrite Hnew, Hsth.
  rewrite !bool_decide_eq_false_2 by done.
  cbn [emit calls trace entriesSeen app]. rewrite Hraw.
  match goal with
  | |- context [process_entries s env ?st 0 entries ?w0] =>
      destruct (process_entries s env st 0 entries w0) as [o w] eqn:Hloop
  end.
  destruct (process_entries_inv _ _ _ _ _ _ _ _ Hloop)
    as (evs & _ & _ & Hexit & _).
  destruct (process_entries_decoded _ _ _ _ _ _ _ _ Hloop) as [k Hk].
  cbn in Hk. split.
  - destruct Hexit as [->|[->|[e ->]]]; cbn; intros state' [= <-]. eauto.
  - exists k. by destruct o as [o|].
Qed.

(** The first sync: the size becomes the watermark, with the time read
    then, and nothing else is asked of the log. *)
Lemma processLog_init s env state size :
  LastFetched state = 0 ->
  client_New (URL state) = None ->
  GetSTH env = Ok size ->
  processLog s env state
  = {| result := Returned (set_fetched state size (time_Now env 0));
       events := [EvGetSTH (URL state)]; seen := 0 |}.
Proof.
  intros Hzero Hnew Hsth. unfold processLog. rewrite Hnew, Hsth.
  by rewrite bool_decide_eq_true_2.
Qed.

(** A task that starts from a watermark at or above a mark asks for
    no range that starts at or below the mark. *)
Lemma processLog_requests_above s env state mark :
  0 <= mark <= LastFetched state ->
  LastFetched state < 2 ^ 63 - 1 ->
  Forall (fun ev => forall url start end_,
              ev = EvGetRawEntries url start end_ -> mark < start)
         (events (processLog s env state)).
Proof.
  intros Hmark Hbound.
  eapply Forall_impl; [apply processLog_requests|].
  intros ev Hev url start end_ ->.
  destruct Hev as (size & _ & _ & Heq); [done|].
  unfold request_of in Heq. inversion Heq; subst.
  rewrite int64_uint64_succ by lia. lia.
Qed.

End ProcessLogFacts.

(** *** The run *)

Section HandlerFacts.
Context {RE : RegexpLib} {CT : CTLib} {CD : CodecLib}.

Lemma receive_None {A : Type} (k : nat) (pending : list A) :
  receive k pending = None -> pending = [].
Proof.
  unfold receive. destruct pending as [|x rest]; [done|].
  destruct (lookup_lt_is_Some_2 (x :: rest)
              (k mod length (x :: rest))%nat) as [y Hy].
  { apply Nat.mod_upper_bound. cbn. lia. }
  by rewrite Hy.
Qed.

Lemma receive_Some {A : Type} (k : nat) (pending : list A) x pending' :
  receive k pending = Some (x, pending') ->
  x ∈ pending
  /\ length pending = S (length pending')
  /\ (forall y, y ∈ pending -> y = x \/ y ∈ pending')
  /\ (forall y, y ∈ pending' -> y ∈ pending).
Proof.
  unfold receive.
  destruct (pending !! (k mod length pending)%nat) as [x'|] eqn:Hl; [|done].
  intros [= -> <-].
  pose proof (take_drop_middle _ _ _ Hl) as Hsplit.
  rewrite delete_take_drop.
  split; [by eapply list_elem_of_lookup_2|].
  split.
  { rewrite <- Hsplit at 1. rewrite !length_app. cbn. lia. }
  split; intros y Hy.
  - rewrite <- Hsplit in Hy.
    apply elem_of_app in Hy as [Hy|Hy]; [right; apply elem_of_app; auto|].
    apply elem_of_cons in Hy as [->|Hy]; [by left|].
    right. apply elem_of_app. auto.
  - rewrite <- Hsplit. apply elem_of_app in Hy as [Hy|Hy];
      apply elem_of_app; [by left|right; by right].
Qed.

(** A task that does not return stops the collecting loop. *)
Lemma collect_aborts sched remaining :
  forall i pending states,
    length pending = remaining ->
    (exists tr, tr ∈ pending /\ forall st, result tr.2 <> Returned st) ->
    (exists e, collect sched i remaining pending states = Failed e)
    \/ collect sched i remaining pending states = Panicked.
Proof.
  induction remaining as [|n IH]; intros i pending states Hlen Hbad.
  { destruct pending; [|done]. destruct Hbad as (tr & Hin & _).
    by apply elem_of_nil in Hin. }
  cbn. destruct (receive (sched i) pending) as [[[t r] pending']|] eqn:Hrecv;
    [|by right].
  apply receive_Some in Hrecv as (Hin & Hl & Hsplit & _).
  destruct (result r) as [state|e|] eqn:Hres; [|by left; eauto|by right].
  destruct states as [m|]; [|by right].
  apply IH; [lia|].
  destruct Hbad as (tr & Htr & Hno). exists tr. split; [|done].
  destruct (Hsplit _ Htr) as [->|?]; [|done].
  cbn in Hno. by destruct (Hno state).
Qed.

(** When every task returns, the loop comes to its end. *)
Lemma collect_all_returned sched remaining :
  forall i pending m,
    length pending = remaining ->
    (forall tr, tr ∈ pending -> exists st, result tr.2 = Returned st) ->
    exists m', collect sched i remaining pending (Some m)
               = Returned (Some m').
Proof.
  induction remaining as [|n IH]; intros i pending m Hlen Hall;
    [by eexists|].
  cbn. destruct (receive (sched i) pending) as [[[t r] pending']|] eqn:Hrecv.
  2:{ apply receive_None in Hrecv. by subst. }
  apply receive_Some in Hrecv as (Hin & Hl & _ & Hsub).
  destruct (Hall _ Hin) as [st Hst]. cbn in Hst. rewrite Hst.
  apply IH; [lia|]. intros tr Htr. apply Hall. by apply Hsub.
Qed.

Lemma run_tasks_elem s env tasks tr :
  tr ∈ run_tasks s env tasks ->
  exists i, tasks !! i = Some tr.1
            /\ tr.2 = processLog s (task_env env i) (task_state tr.1).
Proof.
  unfold run_tasks. intros Hin.
  apply list_elem_of_lookup_1 in Hin as [i Hi].
  rewrite list_lookup_imap in Hi.
  destruct (tasks !! i) as [t|] eqn:Ht; [|done].
  cbn in Hi. inversion Hi; subst. by exists i.
Qed.

Lemma task_events_Exists (P : Event -> Prop) runs :
  Exists P (task_events runs) ->
  exists tr, tr ∈ runs /\ Exists P (events tr.2).
Proof.
  unfold task_events. induction runs as [|tr runs IH]; cbn.
  - by intros ?%Exists_nil.
  - intros [H|H]%Exists_app.
    + exists tr. split; [left|done].
    + destruct (IH H) as (tr' & Hin & Hex). exists tr'. split; [by right|done].
Qed.

Lemma task_events_Forall (P : Event -> Prop) runs :
  (forall tr, tr ∈ runs -> Forall P (events tr.2)) ->
  Forall P (task_events runs).
Proof.
  unfold task_events. induction runs as [|tr runs IH]; cbn; intros Hall.
  - constructor.
  - apply Forall_app. split; [apply Hall; left|].
    apply IH. intros tr' Hin. apply Hall. by right.
Qed.

Lemma bucket_after_state evs :
  Forall (fun ev => ~ is_state_write ev) evs ->
  forall objects, bucket_after evs objects logStateKey = objects logStateKey.
Proof.
  induction 1 as [|ev evs Hev _ IH]; intros objects; [done|].
  destruct ev as [| | |key body []]; cbn; try apply IH.
  rewrite IH. case_bool_decide as Hk; [|done].
  subst. cbn in Hev. tauto.
Qed.

Lemma compile_patterns_invalid patternStrs :
  Exists (fun p => regexp_Compile p = None) patternStrs ->
  exists p, p ∈ patternStrs /\ regexp_Compile p = None
            /\ compile_patterns patternStrs = Fail (CompilePatternErr p).
Proof.
  induction patternStrs as [|p rest IH]; [by intros ?%Exists_nil|].
  intros Hex. cbn. destruct (regexp_Compile p) as [r|] eqn:Hp.
  - apply Exists_cons in Hex as [Hex|Hex]; [congruence|].
    destruct (IH Hex) as (q & Hq & Hnone & ->).
    exists q. split; [by right|done].
  - exists p. split; [left|done].
Qed.

Lemma launch_empty_fresh logList :
  Forall (fun t => task_shared t = false /\ LastFetched (task_state t) = 0)
         (launch (Some ∅) logList).
Proof.
  unfold launch. apply Forall_forall. intros t Ht.
  apply list_elem_of_bind in Ht as (operator & Ht & _).
  apply list_elem_of_bind in Ht as (log & Ht & _).
  unfold launch_log in Ht. case_bool_decide; [by apply elem_of_nil in Ht|].
  cbn in Ht. rewrite lookup_empty in Ht.
  apply list_elem_of_singleton in Ht. by subst.
Qed.

Lemma fresh_task_no_range s env state :
  LastFetched state = 0 ->
  Forall (fun ev => ~ is_range_request ev) (events (processLog s env state)).
Proof.
  intros Hzero. eapply Forall_impl; [apply processLog_requests|].
  intros ev Hev Hr. cbn in Hev. destruct (Hev Hr) as (? & _ & ? & _). done.
Qed.

(** A failed artifact write among the tasks stops the collecting
    loop. *)
Lemma failed_write_aborts s env tasks states :
  Exists is_failed_artifact_write (task_events (run_tasks s env tasks)) ->
  (exists e, collect (select_sender env) 0 (length tasks)
                     (run_tasks s env tasks) states = Failed e)
  \/ collect (select_sender env) 0 (length tasks)
             (run_tasks s env tasks) states = Panicked.
Proof.
  intros Hex. apply collect_aborts.
  { unfold run_tasks. by rewrite length_imap. }
  apply task_events_Exists in Hex as (tr & Hin & Hex).
  exists tr. split; [done|]. intros st Hst.
  apply run_tasks_elem in Hin as (i & _ & Heq). rewrite Heq in Hex, Hst.
  apply processLog_events in Hex as [e He]. congruence.
Qed.

Lemma sync_and_persist_events s env states logList :
  exists tail,
    run_events (sync_and_persist s env states logList)
    = task_events (run_tasks s env (launch states logList)) ++ tail
    /\ Forall is_state_write tail
    /\ (tail <> [] ->
        exists m, collect (select_sender env) 0
                    (length (launch states logList))
                    (run_tasks s env (launch states logList)) states
                  = Returned m).
Proof.
  unfold sync_and_persist.
  destruct (collect _ _ _ _ _) as [m|e|]; cbn;
    try (exists []; by rewrite app_nil_r).
  destruct (json_Marshal_states m) as [statesTxt|e]; cbn;
    [|exists []; by rewrite app_nil_r].
  destruct (PutObject_state env statesTxt); cbn;
    (eexists; split; [done|]; split; [by repeat constructor|by eauto]).
Qed.

End HandlerFacts.

(** ** Main results *)

Section Results.
Context {RE : RegexpLib} {CT : CTLib} {CD : CodecLib}.

(** C3: a task whose state has no fetch recorded never asks for a
    range of entries; when the client is built and the size query
    answers, the task asks for the size only, decodes nothing, and
    returns the state of the same log whose watermark is the size and
    whose time is the time read then. *)
Theorem C3_first_sync_initializes
    (s : server) (env : TaskEnv) (state : LogState) :
  LastFetched state = 0 ->
  Forall (fun ev => ~ is_range_request ev)
         (events (processLog s env state))
  /\ (forall size,
         client_New (URL state) = None ->
         GetSTH env = Ok size ->
         exists state',
           result (processLog s env state) = Returned state'
           /\ LastFetched state' = size
           /\ LastFetchedTime state' = time_Now env 0
           /\ URL state' = URL state
           /\ Operator state' = Operator state
           /\ Description state' = Description state
           /\ events (processLog s env state) = [EvGetSTH (URL state)]
           /\ seen (processLog s env state) = 0%nat).
Proof.
  intros Hzero. split.
  - eapply Forall_impl; [apply processLog_requests|].
    intros ev Hev Hr. cbn in Hev. by destruct (Hev Hr) as (? & _ & ? & _).
  - intros size Hnew Hsth.
    rewrite (processLog_init s env state size Hzero Hnew Hsth).
    eexists. split; [reflexivity|]. cbn. by repeat split.
Qed.

(** C5: when the size query fails, and when the range request fails,
    the task returns the state it was given, with a nil error and
    without any write; and a collecting loop all of whose tasks
    return, as these do, comes to its end without a failure, so that
    the run goes on to write the state file. *)
Theorem C5_transport_error_is_soft
    (s : server) (env : TaskEnv) (state : LogState) :
  client_New (URL state) = None ->
  (forall err, GetSTH env = Fail err ->
      processLog s env state
      = {| result := Returned state;
           events := [EvGetSTH (URL state)]; seen := 0 |})
  /\ (forall size err,
         GetSTH env = Ok size ->
         LastFetched state <> 0 ->
         size <> LastFetched state ->
         GetRawEntries env (int64 (uint64 (LastFetched state + 1)))
                       (int64 size) = Fail err ->
         processLog s env state
         = {| result := Returned state;
              events :=
                [EvGetSTH (URL state);
                 EvGetRawEntries (URL state)
                   (int64 (uint64 (LastFetched state + 1))) (int64 size)];
              seen := 0 |})
  /\ (forall sched pending m,
         (forall tr, tr ∈ pending -> exists st, result tr.2 = Returned st) ->
         exists m', collect sched 0 (length pending) pending (Some m)
                    = Returned (Some m')).
Proof.
  intros Hnew. unfold processLog. rewrite Hnew. split; [|split].
  - by intros err ->.
  - intros size err -> Hnz Hne Hraw.
    rewrite bool_decide_eq_false_2 by done.
    rewrite bool_decide_eq_false_2 by done.
    by rewrite Hraw.
  - intros sched pending m Hall. by apply collect_all_returned.
Qed.


(** C6: when an artifact write fails in a run, the run ends with an
    error (or the process stops), no event of the run is a write of
    the state file, and the state file in the bucket is what it was
    before the run. *)
Theorem C6_artifact_write_failure_aborts_run (env : RunEnv) :
  Exists is_failed_artifact_write (run_events (Handler env)) ->
  ((exists e, run_result (Handler env) = Failed e)
   \/ run_result (Handler env) = Panicked)
  /\ Forall (fun ev => ~ is_state_write ev) (run_events (Handler env))
  /\ (forall objects,
         bucket_after (run_events (Handler env)) objects logStateKey
         = objects logStateKey).
Proof.
  intros Hex.
  assert (Hmain :
    ((exists e, run_result (Handler env) = Failed e)
     \/ run_result (Handler env) = Panicked)
    /\ Forall (fun ev => ~ is_state_write ev) (run_events (Handler env))).
  { revert Hex. unfold Handler.
    case_bool_decide; [by intros ?%Exists_nil|].
    destruct (config_LoadDefaultConfig env); [by intros ?%Exists_nil|].
    destruct (load_all env) as [[[conf states] logList]|];
      [|by intros ?%Exists_nil].
    destruct (compile_patterns (Patterns conf)) as [ps|];
      [|by intros ?%Exists_nil].
    set (s := {| bucket := os_Getenv_bucket env; conf := conf;
                 patterns := ps |}).
    destruct (sync_and_persist_events s env states logList)
      as (tail & Hev & Htail & Hret).
    rewrite Hev. intros Hex.
    assert (Hex' : Exists is_failed_artifact_write
                     (task_events (run_tasks s env (launch states logList)))).
    { apply Exists_app in Hex as [Hex|Hex]; [done|]. exfalso.
      apply Exists_exists in Hex as (ev & Hin & Hf).
      rewrite Forall_forall in Htail. specialize (Htail _ Hin).
      by destruct ev as [| | |[] ? []]. }
    pose proof (failed_write_aborts s env _ states Hex') as Habort.
    assert (tail = []) as ->.
    { destruct tail; [done|]. destruct Hret as [m Hm]; [done|].
      rewrite Hm in Habort. by destruct Habort as [[? ?]|?]. }
    rewrite app_nil_r in *. split.
    - unfold sync_and_persist.
      destruct Habort as [[e ->]| ->]; cbn; eauto.
    - apply task_events_Forall. intros tr Hin.
      apply run_tasks_elem in Hin as (i & _ & ->).
      apply processLog_events. }
  destruct Hmain as [Hres Hno]. split; [done|]. split; [done|].
  by apply bucket_after_state.
Qed.

(** C7: when the configuration that is loaded has a pattern that does
    not compile, the run ends with an error and without any event: no
    task was launched and no log was asked anything.  When the run
    gets as far as compiling, the error names such a pattern. *)
Theorem C7_invalid_pattern_fails_before_contact
    (env : RunEnv) (conf : Config) :
  loadConfig env = Ok conf ->
  Exists (fun p => regexp_Compile p = None) (Patterns conf) ->
  (exists e, run_result (Handler env) = Failed e)
  /\ run_events (Handler env) = []
  /\ (os_Getenv_bucket env <> EmptyString ->
      config_LoadDefaultConfig env = None ->
      (exists logList, fetchLogList env = Ok logList) ->
      exists p, p ∈ Patterns conf /\ regexp_Compile p = None
                /\ run_result (Handler env) = Failed (CompilePatternErr p)).
Proof.
  intros Hconf Hbad.
  destruct (compile_patterns_invalid _ Hbad) as (p & Hp & Hnone & Hfail).
  unfold Handler, load_all. rewrite Hconf.
  case_bool_decide as Hb; cbn.
  { repeat split; eauto. by intros ?. }
  destruct (config_LoadDefaultConfig env); cbn.
  { repeat split; eauto. by intros _ ?. }
  destruct (fetchLogList env) as [logList|e]; cbn.
  - rewrite Hfail. cbn. repeat split; eauto.
  - repeat split; eauto. by intros _ _ [? ?].
Qed.


(** C4, as amended: in the advance of a task in which no artifact
    write fails, every entry of the batch is counted and decoded, in
    order, whatever the decoding of the entries before it gave; an
    artifact is stored for exactly the entries that hit; an entry
    whose decoding error is fatal never hits, so that entry alone is
    passed over; an entry decoded with an error that is not fatal
    hits or not as if it had been decoded without error; and the task
    returns the state of the same log whose watermark is the size and
    whose time is one read in the task. *)
Theorem C4_decode_errors_amended
    (s : server) (env : TaskEnv) (state : LogState)
    (size : Z) (entries : list LeafEntry) :
  decoder_gives_entry -> marshal_works -> writes_succeed env ->
  client_New (URL state) = None ->
  GetSTH env = Ok size ->
  LastFetched state <> 0 ->
  size <> LastFetched state ->
  GetRawEntries env (int64 (uint64 (LastFetched state + 1))) (int64 size)
  = Ok entries ->
  (exists state' n,
      result (processLog s env state) = Returned state'
      /\ LastFetched state' = size
      /\ LastFetchedTime state' = time_Now env n
      /\ URL state' = URL state
      /\ Operator state' = Operator state
      /\ Description state' = Description state)
  /\ seen (processLog s env state) = length entries
  /\ decoded (events (processLog s env state))
     = indexed (int64 (uint64 (LastFetched state + 1))) 0 entries
  /\ artifacts (events (processLog s env state))
     = batch_artifacts s
         (indexed (int64 (uint64 (LastFetched state + 1))) 0 entries)
  /\ (forall index entry,
         x509_IsFatal (ct_LogEntryFromLeaf index entry).2 = true ->
         entry_hit s index entry = None)
  /\ (forall index entry logEntry err,
         ct_LogEntryFromLeaf index entry = (Some logEntry, err) ->
         x509_IsFatal err = false ->
         entry_hit s index entry
         = match select_cert s logEntry with
           | Some cert => matched_name s cert
           | None => None
           end).
Proof.
  intros Hdec Hmar Hput Hnew Hsth Hnz Hne Hraw.
  destruct (processLog_advance_clean s env state size entries
              Hdec Hmar Hput Hnew Hsth Hnz Hne Hraw)
    as ([n Hres] & Hseen & Hdecs & Harts & _).
  split.
  { eexists _, n. split; [exact Hres|]. cbn. by repeat split. }
  repeat (split; [done|]). split.
  - intros index entry. unfold entry_hit.
    destruct (ct_LogEntryFromLeaf index entry) as [le err]. cbn.
    by intros ->.
  - intros index entry le err Heq Hnf. unfold entry_hit.
    by rewrite Heq, Hnf.
Qed.

(** C10, as amended: when the range request succeeds, whatever the
    number of entries of the batch, also below the gap: a task that
    returns a state returns the one whose watermark is the size of
    the head, and the task decodes nothing but entries of the batch;
    when nothing fails to be stored the task does return that state,
    having decoded the batch and no more; and no later task that
    starts from a watermark at or above the returned one, below
    2^63 - 1, asks for a range that starts at or below that size, so
    that what the batch left out is not fetched by it; and a task in
    which an artifact write fails ends with the error of the write,
    without a state. *)
Theorem C10_truncated_batch_still_advances
    (s : server) (env : TaskEnv) (state : LogState)
    (size : Z) (entries : list LeafEntry) :
  client_New (URL state) = None ->
  GetSTH env = Ok size ->
  LastFetched state <> 0 ->
  size <> LastFetched state ->
  GetRawEntries env (int64 (uint64 (LastFetched state + 1))) (int64 size)
  = Ok entries ->
  (forall state',
      result (processLog s env state) = Returned state' ->
      LastFetched state' = size /\ URL state' = URL state)
  /\ (exists k,
         decoded (events (processLog s env state))
         = take k (indexed (int64 (uint64 (LastFetched state + 1))) 0
                           entries))
  /\ (decoder_gives_entry -> marshal_works -> writes_succeed env ->
      (exists state',
          result (processLog s env state) = Returned state'
          /\ LastFetched state' = size)
      /\ seen (processLog s env state) = length entries
      /\ decoded (events (processLog s env state))
         = indexed (int64 (uint64 (LastFetched state + 1))) 0 entries)
  /\ (forall state' env' later,
         result (processLog s env state) = Returned state' ->
         0 <= size ->
         LastFetched state' <= LastFetched later < 2 ^ 63 - 1 ->
         Forall (fun ev => forall url start end_,
                     ev = EvGetRawEntries url start end_ -> size < start)
                (events (processLog s env' later)))
  /\ (Exists is_failed_artifact_write (events (processLog s env state)) ->
      exists e, result (processLog s env state)
                = Failed (S3PutObjectErr e)).
Proof.
  intros Hnew Hsth Hnz Hne Hraw.
  destruct (processLog_advance_any s env state size entries
              Hnew Hsth Hnz Hne Hraw) as [Hret Hpre].
  split; [|split; [done|split; [|split; [|apply processLog_events]]]].
  - intros state' Hres. by destruct (Hret _ Hres) as [n ->].
  - intros Hdec Hmar Hput.
    destruct (processLog_advance_clean s env state size entries
                Hdec Hmar Hput Hnew Hsth Hnz Hne Hraw)
      as ([n Hres] & Hseen & Hdecs & _ & _).
    split; [|done]. eexists. split; [exact Hres|done].
  - intros state' env' later Hres' Hsize Hlater.
    destruct (Hret _ Hres') as [n ->]. cbn in Hlater.
    apply processLog_requests_above; lia.
Qed.

End Results.

(** ** Concrete runs *)

Section Concrete.

#[local] Existing Instance suffix_engine.
#[local] Existing Instance example_ct.
#[local] Existing Instance example_codec.

Lemma example_decoder_gives_entry : decoder_gives_entry.
Proof.
  intros index entry. cbn.
  repeat case_bool_decide; cbn; try done; by eauto.
Qed.

Lemma example_marshal_works : marshal_works.
Proof. intros entry. by eexists. Qed.

Lemma example_writes_succeed size batch :
  writes_succeed (example_env size batch).
Proof. by intros n key body. Qed.

(** C2: a log holds fifteen entries, of which those at the indices 10
    and 12 match, and the task starts from the watermark 10.  The one
    range it asks for is from 11 to 15: the entry at the index 10 is
    not in it, and is neither decoded nor stored; four entries are
    decoded, one artifact is stored, and the watermark becomes 15. *)
Theorem C2_advance_asks_from_watermark_plus_one :
  events (processLog example_server (serving_log held15) (example_state 10))
  = [ EvGetSTH "https://log.example/";
      EvGetRawEntries "https://log.example/" 11 15;
      EvDecode 11 (leaf "a11" "cert");
      EvDecode 12 (leaf "www.google.com" "cert");
      EvPutObject (CertKey 1001 "r" "www.google.com") "www.google.com" true;
      EvDecode 13 (leaf "a13" "cert");
      EvDecode 14 (leaf "a14" "cert") ]
  /\ held15 !! 10%nat = Some (leaf "mail.google.com" "cert")
  /\ entry_hit example_server 10 (leaf "mail.google.com" "cert")
     = Some "mail.google.com"
  /\ seen (processLog example_server (serving_log held15) (example_state 10))
     = 4%nat
  /\ result (processLog example_server (serving_log held15)
                        (example_state 10))
     = Returned (set_fetched (example_state 10) 15 1003).
Proof. by vm_compute. Qed.

(** C3 on a first sync of a log whose head is at 15. *)
Lemma C3_witness :
  LastFetched (example_state 0) = 0
  /\ result (processLog example_server (example_env 15 []) (example_state 0))
     = Returned {| URL := "https://log.example/"; Operator := "op";
                   Description := "an example log";
                   LastFetched := 15; LastFetchedTime := 1000 |}
  /\ events (processLog example_server (example_env 15 []) (example_state 0))
     = [EvGetSTH "https://log.example/"].
Proof.
  split; [reflexivity|].
  destruct (C3_first_sync_initializes example_server (example_env 15 [])
              (example_state 0) eq_refl) as [_ Hinit].
  destruct (Hinit 15 eq_refl eq_refl)
    as (state' & Hres & Hsize & Htime & Hurl & Hop & Hdesc & Hev & _).
  split; [|exact Hev].
  rewrite Hres. destruct state'; cbn in *. by subst.
Defined.

(** C4 fails on a batch of two entries met at the watermark 10: the
    decoding of the first is fatal, and the second, which matches, is
    decoded with an error that is not fatal.  Were the entry with the
    error that is not fatal passed over, no artifact would be stored;
    were the rest of the batch dropped after the fatal error, one
    entry would be decoded.  The code decodes both and stores the
    second. *)
Lemma C4_counterexample :
  ~ (forall (batch : list LeafEntry) (k : nat) (entry : LeafEntry),
        batch !! k = Some entry ->
        (ct_LogEntryFromLeaf (11 + Z.of_nat k) entry).2 <> None ->
        x509_IsFatal (ct_LogEntryFromLeaf (11 + Z.of_nat k) entry).2
        = false ->
        (LeafInput entry, body_of entry)
        ∉ artifacts (events (processLog example_server
                               (example_env 15 batch) (example_state 10))))
  /\ ~ (forall (batch : list LeafEntry) (k : nat) (entry : LeafEntry),
           batch !! k = Some entry ->
           x509_IsFatal (ct_LogEntryFromLeaf (11 + Z.of_nat k) entry).2
           = true ->
           decoded (events (processLog example_server
                              (example_env 15 batch) (example_state 10)))
           = indexed 11 0 (take (S k) batch)).
Proof.
  split; intros Hclaim.
  - apply (Hclaim [leaf "x" "fatal"; leaf "www.google.com" "nonfatal"]
                  1%nat (leaf "www.google.com" "nonfatal"));
      [reflexivity|discriminate|reflexivity|].
    vm_compute. left.
  - specialize (Hclaim [leaf "x" "fatal"; leaf "www.google.com" "nonfatal"]
                       0%nat (leaf "x" "fatal") eq_refl eq_refl).
    vm_compute in Hclaim. discriminate.
Qed.

(** C4, as amended, on that batch: the task returns the watermark
    15. *)
Lemma C4_witness :
  (exists state',
      result (processLog example_server
                (example_env 15 [leaf "x" "fatal";
                                 leaf "www.google.com" "nonfatal"])
                (example_state 10)) = Returned state'
      /\ LastFetched state' = 15)
  /\ seen (processLog example_server
          (example_env 15 [leaf "x" "fatal";
                           leaf "www.google.com" "nonfatal"])
          (example_state 10)) = 2%nat
  /\ decoded (events (processLog example_server
          (example_env 15 [leaf "x" "fatal";
                           leaf "www.google.com" "nonfatal"])
          (example_state 10)))
     = [(11, leaf "x" "fatal"); (12, leaf "www.google.com" "nonfatal")]
  /\ artifacts (events (processLog example_server
          (example_env 15 [leaf "x" "fatal";
                           leaf "www.google.com" "nonfatal"])
          (example_state 10)))
     = [("www.google.com", "www.google.com")].
Proof.
  destruct (C4_decode_errors_amended example_server
              (example_env 15 [leaf "x" "fatal";
                               leaf "www.google.com" "nonfatal"])
              (example_state 10) 15
              [leaf "x" "fatal"; leaf "www.google.com" "nonfatal"]
              example_decoder_gives_entry example_marshal_works
              (example_writes_succeed _ _) eq_refl eq_refl
              ltac:(discriminate) ltac:(discriminate) eq_refl)
    as ((state' & n & Hres & Hsize & _) & Hseen & Hdecs & Harts & _).
  split; [by exists state'|].
  split; [exact Hseen|]. split; [exact Hdecs|exact Harts].
Defined.

(** C5 on a log that cannot be reached. *)
Lemma C5_witness :
  client_New (URL (example_state 10)) = None
  /\ processLog example_server unreachable_env (example_state 10)
     = {| result := Returned (example_state 10);
          events := [EvGetSTH "https://log.example/"]; seen := 0 |}.
Proof.
  split; [reflexivity|].
  destruct (@C5_transport_error_is_soft suffix_engine example_ct
              example_codec example_server unreachable_env
              (example_state 10) ltac:(reflexivity)) as [Hsize _].
  apply (Hsize (LibError "timeout")). reflexivity.
Defined.

(** C6 on a run whose one task finds a match that the store refuses. *)
Lemma C6_witness :
  Exists is_failed_artifact_write
    (run_events
       (Handler (example_run "google" (Ok (Ok "at10"))
                   (refusing_env 15 [leaf "www.google.com" "cert"]))))
  /\ Forall (fun ev => ~ is_state_write ev)
       (run_events
          (Handler (example_run "google" (Ok (Ok "at10"))
                      (refusing_env 15 [leaf "www.google.com" "cert"])))).
Proof.
  assert (Hfails :
    Exists is_failed_artifact_write
      (run_events
         (Handler (example_run "google" (Ok (Ok "at10"))
                     (refusing_env 15 [leaf "www.google.com" "cert"]))))).
  { apply (bool_decide_unpack _). vm_compute. exact I. }
  split; [exact Hfails|].
  apply (C6_artifact_write_failure_aborts_run _ Hfails).
Defined.

(** C7 on a configuration whose second pattern does not compile. *)
Lemma C7_witness :
  Handler (example_run "badpattern" (Ok (Ok "at10"))
             (example_env 15 [leaf "www.google.com" "cert"]))
  = {| run_result := Failed (CompilePatternErr "("); run_events := [] |}
  /\ run_events
       (Handler (example_run "badpattern" (Ok (Ok "at10"))
                   (example_env 15 [leaf "www.google.com" "cert"]))) = [].
Proof.
  split; [reflexivity|].
  apply (C7_invalid_pattern_fails_before_contact
           (example_run "badpattern" (Ok (Ok "at10"))
              (example_env 15 [leaf "www.google.com" "cert"]))
           {| Domains := ["google.com"]; Patterns := ["www"; "("];
              IncludePreCerts := false |}).
  - reflexivity.
  - apply Exists_cons_tl, Exists_cons_hd. reflexivity.
Defined.



(** C10 fails on a batch whose one entry matches, in front of a store
    that refuses the write: the range request has succeeded, and the
    task ends with the error of the write and returns no state. *)
Lemma C10_counterexample :
  GetRawEntries (refusing_env 15 [leaf "www.google.com" "cert"]) 11 15
  = Ok [leaf "www.google.com" "cert"]
  /\ result (processLog example_server
               (refusing_env 15 [leaf "www.google.com" "cert"])
               (example_state 10))
     = Failed (S3PutObjectErr (LibError "unavailable"))
  /\ ~ (forall (env : TaskEnv) (state : LogState) (size : Z)
                (entries : list LeafEntry),
           client_New (URL state) = None ->
           GetSTH env = Ok size ->
           LastFetched state <> 0 ->
           size <> LastFetched state ->
           GetRawEntries env (int64 (uint64 (LastFetched state + 1)))
                         (int64 size) = Ok entries ->
           exists state',
             result (processLog example_server env state) = Returned state'
             /\ LastFetched state' = size).
Proof.
  split; [reflexivity|]. split; [by vm_compute|].
  intros Hclaim.
  destruct (Hclaim (refusing_env 15 [leaf "www.google.com" "cert"])
              (example_state 10) 15 [leaf "www.google.com" "cert"]
              ltac:(reflexivity) ltac:(reflexivity) ltac:(discriminate)
              ltac:(discriminate) ltac:(reflexivity))
    as (state' & Hres & _).
  vm_compute in Hres. discriminate Hres.
Qed.

(** C10, as amended, on a gap of five entries answered with a batch
    of two: the watermark becomes 15, and a later task that starts
    from 15 and finds the head at 20 asks for the range from 16. *)
Lemma C10_witness :
  GetRawEntries
    (example_env 15 [leaf "a" "cert"; leaf "www.google.com" "cert"]) 11 15
  = Ok [leaf "a" "cert"; leaf "www.google.com" "cert"]
  /\ (exists state',
         result (processLog example_server
                   (example_env 15 [leaf "a" "cert";
                                    leaf "www.google.com" "cert"])
                   (example_state 10))
         = Returned state'
         /\ LastFetched state' = 15)
  /\ seen (processLog example_server
             (example_env 15 [leaf "a" "cert";
                              leaf "www.google.com" "cert"])
             (example_state 10)) = 2%nat
  /\ decoded (events (processLog example_server
                        (example_env 15 [leaf "a" "cert";
                                         leaf "www.google.com" "cert"])
                        (example_state 10)))
     = [(11, leaf "a" "cert"); (12, leaf "www.google.com" "cert")].
Proof.
  split; [reflexivity|].
  destruct (@C10_truncated_batch_still_advances suffix_engine example_ct
              example_codec example_server
              (example_env 15 [leaf "a" "cert";
                               leaf "www.google.com" "cert"])
              (example_state 10) 15
              [leaf "a" "cert"; leaf "www.google.com" "cert"]
              ltac:(reflexivity) ltac:(reflexivity)
              ltac:(discriminate) ltac:(discriminate) ltac:(reflexivity))
    as (_ & _ & Hclean & _).
  exact (Hclean example_decoder_gives_entry example_marshal_works
           (example_writes_succeed _ _)).
Defined.

End Concrete.

(** ** The loop over the entries, in general *)

Section LoopShape.
Context {RE : RegexpLib} {CT : CTLib} {CD : CodecLib}.

Lemma process_entries_cons s env start i entry rest w o w' :
  process_entries s env start i (entry :: rest) w = (o, w') ->
  exists o1 evs w1,
    entry_case s env (int64 (start + i)) entry o1 evs
    /\ trace w1 = trace w ++ evs
    /\ entriesSeen w1 = S (entriesSeen w)
    /\ match o1 with
       | Some x => o = Some x /\ w' = w1
       | None => process_entries s env start (i + 1) rest w1 = (o, w')
       end.
Proof.
  cbn [process_entries]. intros Hrun.
  set (index := int64 (start + i)) in *.
  set (w0 := emit (EvDecode index entry) (count_entry w)) in *.
  assert (Hhit : entry_hit s index entry
                 = let '(logEntry, err) := ct_LogEntryFromLeaf index entry in
                   if x509_IsFatal err then None
                   else match logEntry with
                        | None => None
                        | Some le =>
                            match select_cert s le with
                            | None => None
                            | Some cert => matched_name s cert
                            end
                        end) by done.
  destruct (ct_LogEntryFromLeaf index entry) as [logEntry err] eqn:Hdec.
  destruct (x509_IsFatal err) eqn:Hfatal.
  { exists None, [EvDecode index entry], w0.
    split; [by constructor|]. split; [done|]. by split. }
  destruct logEntry as [le|].
  2:{ inversion Hrun; subst.
      exists (Some Panicked), [EvDecode index entry], w0.
      split; [|by split; [|split]].
      apply ec_nil_entry; [done|..]; by rewrite Hdec. }
  destruct (select_cert s le) as [cert|].
  2:{ exists None, [EvDecode index entry], w0.
      split; [by constructor|]. split; [done|]. by split. }
  unfold matched_name in Hhit.
  destruct (nameMatches s cert) as [[[] name] rule].
  2:{ exists None, [EvDecode index entry], w0.
      split; [by constructor|]. split; [done|]. by split. }
  destruct (store_match_cases env entry name w0) as [Hcase Hsame].
  destruct (store_match env entry name w0) as [oe w1].
  cbn [fst snd] in Hcase, Hsame.
  inversion Hcase as [err' w2 Hm Htr|err' key w2 Hp Htr [t [b ->]]
                      |key w2 Htr [t [b ->]]]; subst.
  - inversion Hrun; subst.
    exists (Some (Failed err')), [EvDecode index entry], w'.
    split; [by eapply ec_marshal|]. split; [by rewrite Htr|]. by split.
  - inversion Hrun; subst.
    exists (Some (Failed (S3PutObjectErr err'))),
      [EvDecode index entry;
       EvPutObject (CertKey t b name) (body_of entry) false], w'.
    split; [by eapply ec_refused|]. split; [|by split].
    rewrite Htr. cbn. by rewrite <- app_assoc.
  - exists None,
      [EvDecode index entry;
       EvPutObject (CertKey t b name) (body_of entry) true], w1.
    split; [by eapply ec_stored|]. split; [|by split].
    rewrite Htr. cbn. by rewrite <- app_assoc.
Qed.

Lemma batch_artifacts_cons s index entry rest :
  batch_artifacts s ((index, entry) :: rest)
  = match entry_hit s index entry with
    | Some name => [(name, body_of entry)]
    | None => []
    end ++ batch_artifacts s rest.
Proof.
  unfold batch_artifacts. cbn. by destruct (entry_hit s index entry).
Qed.

(** However the loop ends: the count it keeps is the number of entries
    it has handed to the decoder, what it has stored is a first part
    of what the batch holds to store, and a refused write is the last
    thing it does. *)
Lemma process_entries_shape s env start entries :
  forall i w o w',
    process_entries s env start i entries w = (o, w') ->
    exists evs tail,
      trace w' = trace w ++ evs
      /\ entriesSeen w' = (entriesSeen w + length (decoded evs))%nat
      /\ batch_artifacts s (indexed start i entries) = artifacts evs ++ tail
      /\ (Exists is_failed_artifact_write evs ->
          exists evs0 key body,
            evs = evs0 ++ [EvPutObject key body false]
            /\ Forall (fun ev => ~ is_failed_artifact_write ev) evs0).
Proof.
  induction entries as [|entry rest IH]; intros i w o w' Hrun.
  { cbn in Hrun. inversion Hrun; subst. exists [], [].
    rewrite app_nil_r. cbn. split; [done|]. split; [lia|]. split; [done|].
    by intros ?%Exists_nil. }
  destruct (process_entries_cons _ _ _ _ _ _ _ _ _ Hrun)
    as (o1 & evs1 & w1 & Hcase & Htr & Hseen & Hnext).
  cbn [indexed]. rewrite batch_artifacts_cons.
  assert (Hgo : forall hit more,
             o1 = None ->
             evs1 = EvDecode (int64 (start + i)) entry :: more ->
             artifacts more = hit -> decoded more = [] ->
             Forall (fun ev => ~ is_failed_artifact_write ev) more ->
             exists evs tail,
               trace w' = trace w ++ evs
               /\ entriesSeen w' = (entriesSeen w + length (decoded evs))%nat
               /\ hit ++ batch_artifacts s (indexed start (i + 1) rest)
                  = artifacts evs ++ tail
               /\ (Exists is_failed_artifact_write evs ->
                   exists evs0 key body,
                     evs = evs0 ++ [EvPutObject key body false]
                     /\ Forall (fun ev => ~ is_failed_artifact_write ev)
                               evs0)).
  { intros hit more -> -> Hhit Hnodec Hclean.
    destruct (IH _ _ _ _ Hnext) as (evs & tail & Htr' & Hseen' & Harts & Hlast).
    exists (EvDecode (int64 (start + i)) entry :: more ++ evs), tail.
    split; [by rewrite Htr', Htr, <- app_assoc|].
    split.
    { rewrite Hseen', Hseen. cbn. rewrite decoded_app, Hnodec. cbn. lia. }
    split.
    { cbn. rewrite artifacts_app, Hhit, Harts. by rewrite <- app_assoc. }
    intros Hx. apply Exists_cons in Hx as [Hx|Hx]; [done|].
    apply Exists_app in Hx as [Hx|Hx].
    { exfalso. apply Exists_exists in Hx as (ev & Hin & Hf).
      rewrite Forall_forall in Hclean. by eapply Hclean. }
    destruct (Hlast Hx) as (evs0 & key & body & -> & Hevs0).
    exists (EvDecode (int64 (start + i)) entry :: more ++ evs0), key, body.
    split; [by cbn; rewrite <- app_assoc|].
    constructor; [cbn; tauto|]. by apply Forall_app. }
  assert (Hstop : forall x more,
             o1 = Some x ->
             evs1 = EvDecode (int64 (start + i)) entry :: more ->
             artifacts more = [] -> decoded more = [] ->
             (Exists is_failed_artifact_write more ->
              exists key body, more = [EvPutObject key body false]) ->
             exists evs tail,
               trace w' = trace w ++ evs
               /\ entriesSeen w' = (entriesSeen w + length (decoded evs))%nat
               /\ match entry_hit s (int64 (start + i)) entry with
                  | Some name => [(name, body_of entry)]
                  | None => []
                  end ++ batch_artifacts s (indexed start (i + 1) rest)
                  = artifacts evs ++ tail
               /\ (Exists is_failed_artifact_write evs ->
                   exists evs0 key body,
                     evs = evs0 ++ [EvPutObject key body false]
                     /\ Forall (fun ev => ~ is_failed_artifact_write ev)
                               evs0)).
  { intros x more -> -> Hnoart Hnodec Hmore. destruct Hnext as [-> ->].
    exists (EvDecode (int64 (start + i)) entry :: more). eexists.
    split; [done|]. split.
    { rewrite Hseen. unfold decoded in *. cbn. rewrite Hnodec. cbn. lia. }
    split.
    { unfold artifacts in *. cbn. rewrite Hnoart. done. }
    intros Hx. apply Exists_cons in Hx as [Hx|Hx]; [done|].
    destruct (Hmore Hx) as (key & body & ->).
    exists [EvDecode (int64 (start + i)) entry], key, body.
    split; [done|]. constructor; [cbn; tauto|constructor]. }
  inversion Hcase as [Hhit|Hhit Hnil Hnf|name err Hhit Hm
                      |name err t b Hhit|name t b Hhit]; subst.
  - rewrite Hhit. apply (Hgo [] []); first [done|constructor].
  - rewrite Hhit in *.
    eapply (Hstop _ []); first [done|by intros ?%Exists_nil].
  - eapply (Hstop _ []); first [done|by intros ?%Exists_nil].
  - eapply (Hstop _ [EvPutObject (CertKey t b name) (body_of entry) false]);
      first [done|by eauto].
  - rewrite Hhit.
    apply (Hgo [(name, body_of entry)]
               [EvPutObject (CertKey t b name) (body_of entry) true]);
      first [done|constructor; [cbn; tauto|constructor]].
Qed.

End LoopShape.

(** ** More on the rule engine *)

Section RuleEngineMore.
Context {RE : RegexpLib}.

Lemma match_domains_first (n : string) (ds : list string) :
  match match_domains n ds with
  | Some rule =>
      exists pre R post,
        ds = pre ++ R :: post
        /\ Forall (fun d => domainMatches n d = false) pre
        /\ domainMatches n R = true
        /\ rule = "domain-" +:+ R
  | None => Forall (fun d => domainMatches n d = false) ds
  end.
Proof.
  induction ds as [|d ds IH]; cbn; [constructor|].
  destruct (domainMatches n d) eqn:Hd.
  - exists [], d, ds. by repeat split.
  - destruct (match_domains n ds) as [rule|].
    + destruct IH as (pre & R & post & -> & Hpre & HR & ->).
      exists (d :: pre), R, post. repeat split; try done. by constructor.
    + by constructor.
Qed.

Lemma match_patterns_first (n : string) (ps : list Regexp) :
  match match_patterns n ps with
  | Some rule =>
      exists pre r post,
        ps = pre ++ r :: post
        /\ Forall (fun p => regexp_Match p n = false) pre
        /\ regexp_Match r n = true
        /\ rule = "pattern-" +:+ regexp_String r
  | None => Forall (fun p => regexp_Match p n = false) ps
  end.
Proof.
  induction ps as [|p ps IH]; cbn; [constructor|].
  destruct (regexp_Match p n) eqn:Hp.
  - exists [], p, ps. by repeat split.
  - destruct (match_patterns n ps) as [rule|].
    + destruct IH as (pre & r & post & -> & Hpre & Hr & ->).
      exists (p :: pre), r, post. repeat split; try done. by constructor.
    + by constructor.
Qed.

Lemma name_hits_iff (s : server) (n : string) :
  name_hits s n <->
  is_Some (match_domains n (Domains (conf s)))
  \/ is_Some (match_patterns n (patterns s)).
Proof.
  unfold name_hits. rewrite match_domains_Some, match_patterns_Some.
  split; intros [(R & HR & H)|H]; [left|by right|left|by right];
    exists R; (split; [done|]); by apply domainMatches_spec.
Qed.

(** X1: a match that [nameMatches] reports is on the first name of the
    certificate that any rule hits; the rule it names is the first
    domain rule that matches that name, and a pattern, the first that
    matches, only when no domain rule matches the name. *)
Theorem nameMatches_first_match (s : server) (c : Certificate)
    (name rule : string) :
  nameMatches s c = (true, name, rule) ->
  (exists pre post,
      DNSNames c = pre ++ name :: post
      /\ Forall (fun n => ~ name_hits s n) pre)
  /\ ((exists dpre R dpost,
          Domains (conf s) = dpre ++ R :: dpost
          /\ Forall (fun d => domainMatches name d = false) dpre
          /\ domainMatches name R = true
          /\ rule = "domain-" +:+ R)
      \/ (Forall (fun d => domainMatches name d = false) (Domains (conf s))
          /\ exists ppre r ppost,
              patterns s = ppre ++ r :: ppost
              /\ Forall (fun p => regexp_Match p name = false) ppre
              /\ regexp_Match r name = true
              /\ rule = "pattern-" +:+ regexp_String r)).
Proof.
  unfold nameMatches. generalize (DNSNames c). intros names.
  induction names as [|n names IH]; cbn; [done|].
  pose proof (match_domains_first n (Domains (conf s))) as Hd.
  pose proof (match_patterns_first n (patterns s)) as Hp.
  pose proof (name_hits_iff s n) as Hhit.
  destruct (match_domains n (Domains (conf s))) as [drule|].
  { intros [= <- <-]. split; [exists [], names; by split|]. by left. }
  destruct (match_patterns n (patterns s)) as [prule|].
  { intros [= <- <-]. split; [exists [], names; by split|]. by right. }
  intros Hrest. destruct (IH Hrest) as [(pre & post & -> & Hpre) Hrule].
  split; [|done]. exists (n :: pre), post. split; [done|].
  constructor; [|done]. rewrite Hhit. by intros [[? ?]|[? ?]].
Qed.

(** X2: when [nameMatches] reports no match, the two strings it
    returns are empty and no name of the certificate is hit by any
    rule; it reports none for a certificate without names and for a
    rule set without rules. *)
Theorem nameMatches_no_match (s : server) (c : Certificate) :
  (forall name rule,
      nameMatches s c = (false, name, rule) ->
      name = EmptyString /\ rule = EmptyString
      /\ Forall (fun n => ~ name_hits s n) (DNSNames c))
  /\ (DNSNames c = [] ->
      nameMatches s c = (false, EmptyString, EmptyString))
  /\ (Domains (conf s) = [] -> patterns s = [] ->
      nameMatches s c = (false, EmptyString, EmptyString)).
Proof.
  unfold nameMatches. split; [|split].
  - generalize (DNSNames c). intros names.
    induction names as [|n names IH]; cbn; intros name rule.
    + intros [= <- <-]. by repeat split.
    + pose proof (name_hits_iff s n) as Hhit.
      destruct (match_domains n (Domains (conf s))); [done|].
      destruct (match_patterns n (patterns s)); [done|].
      intros Hrest. destruct (IH _ _ Hrest) as (-> & -> & Hno).
      repeat split. constructor; [|done].
      rewrite Hhit. by intros [[? ?]|[? ?]].
  - by intros ->.
  - intros Hd Hp. generalize (DNSNames c). intros names.
    induction names as [|n names IH]; cbn; [done|].
    by rewrite Hd, Hp.
Qed.

(** X3: a name that matches a domain rule still matches it with any
    labels put in front of it: the rule covers every deeper
    subdomain. *)
Theorem domainMatches_subdomain (n R p : string) :
  domainMatches n R = true ->
  domainMatches (p +:+ "." +:+ n) R = true.
Proof.
  rewrite !domainMatches_spec. intros [->|[q ->]]; right.
  - by exists p.
  - exists (p +:+ "." +:+ q). by rewrite !app_assoc_string.
Qed.

End RuleEngineMore.

(** ** More on one sync task *)

Section TaskMore.
Context {RE : RegexpLib} {CT : CTLib} {CD : CodecLib}.

Lemma int64_small (n : Z) : 0 <= n < 2 ^ 63 -> int64 n = n.
Proof.
  intros Hn. unfold int64.
  change (2 ^ 64) with 18446744073709551616 in *.
  change (2 ^ 63) with 9223372036854775808 in *.
  rewrite Z.mod_small by lia. lia.
Qed.

Lemma entry_events_quiet (evs : list Event) :
  Forall is_entry_event evs ->
  filter is_range_request evs = [] /\ omap event_url evs = []
  /\ Forall (fun ev => forall key, event_key ev = Some key -> is_cert_key key)
            evs.
Proof.
  induction 1 as [|ev evs Hev _ (IH1 & IH2 & IH3)]; [by repeat split|].
  destruct ev as [| | |[] body ok]; cbn in Hev |- *; try done;
    (split; [done|]; split; [done|]; constructor; [|done]);
    by intros key [= <-].
Qed.

Lemma processLog_keeps_identity_aux s env state state' :
  result (processLog s env state) = Returned state' ->
  URL state' = URL state.
Proof.
  intros Hres.
  by apply processLog_returns in Hres as [->|(size & now & _ & ->)].
Qed.

(** X4: a task that returns gives back the state it was given with at
    most the watermark and its time changed: the URL, the operator and
    the description are kept, and a changed watermark is the size the
    log reported. *)
Theorem processLog_keeps_identity
    (s : server) (env : TaskEnv) (state state' : LogState) :
  result (processLog s env state) = Returned state' ->
  URL state' = URL state
  /\ Operator state' = Operator state
  /\ Description state' = Description state
  /\ (state' = state \/ GetSTH env = Ok (LastFetched state')).
Proof.
  intros Hres.
  apply processLog_returns in Hres as [->|(size & now & Hsize & ->)];
    cbn; by eauto.
Qed.

(** X5: after a run that brought the watermark to the size of the
    log, a second run that finds the same size, if it is not 0, asks
    the size and nothing else and returns the state as the first run
    left it.  A log that reports the size 0 is initialized anew by
    every run: the state comes back with the watermark 0 and the time
    of that run. *)
Theorem processLog_idempotent
    (s : server) (env env' : TaskEnv) (state state' : LogState) (size : Z) :
  client_New (URL state) = None ->
  GetSTH env' = Ok size ->
  result (processLog s env state) = Returned state' ->
  LastFetched state' = size ->
  (size <> 0 ->
   processLog s env' state'
   = {| result := Returned state';
        events := [EvGetSTH (URL state)]; seen := 0 |})
  /\ (size = 0 ->
      processLog s env' state'
      = {| result := Returned (set_fetched state' 0 (time_Now env' 0));
           events := [EvGetSTH (URL state)]; seen := 0 |}).
Proof.
  intros Hnew Hsth Hres Hsize.
  pose proof (processLog_keeps_identity_aux _ _ _ _ Hres) as Hurl.
  unfold processLog. rewrite Hurl, Hnew, Hsth, Hsize.
  split; intros Hz.
  - rewrite bool_decide_eq_false_2 by done.
    by rewrite bool_decide_eq_true_2 by done.
  - rewrite bool_decide_eq_true_2 by done. by rewrite Hz.
Qed.

Lemma processLog_events_form s env state :
  exists calls evs,
    events (processLog s env state) = calls ++ evs
    /\ Forall is_entry_event evs
    /\ (calls = [] \/ calls = [EvGetSTH (URL state)]
        \/ exists size, calls = [EvGetSTH (URL state); request_of state size]).
Proof.
  destruct (processLog_path s env state)
    as [err Hn|err Hn Hs|size Hn Hs Hz|size Hn Hs Hz He
        |size err Hn Hs Hz Hne Hr|size entries o w Hn Hs Hz Hne Hr Hloop];
    cbn.
  - exists [], []. by eauto.
  - exists [EvGetSTH (URL state)], []. by eauto.
  - exists [EvGetSTH (URL state)], []. by eauto.
  - exists [EvGetSTH (URL state)], []. by eauto.
  - exists [EvGetSTH (URL state); request_of state size], [].
    split; [done|]. split; [done|]. by eauto.
  - destruct (process_entries_inv _ _ _ _ _ _ _ _ Hloop)
      as (evs & -> & Hall & _ & _).
    exists [EvGetSTH (URL state); request_of state size], evs.
    split; [done|]. split; [done|]. by eauto.
Qed.

(** X6: a task calls no other log than the one of its state, at most
    twice, and at most once for a range; a task whose client cannot be
    built calls nothing and returns the error. *)
Theorem processLog_calls_own_log
    (s : server) (env : TaskEnv) (state : LogState) :
  Forall (fun ev => forall url, event_url ev = Some url -> url = URL state)
         (events (processLog s env state))
  /\ (length (omap event_url (events (processLog s env state))) <= 2)%nat
  /\ (length (filter is_range_request (events (processLog s env state)))
      <= 1)%nat
  /\ (forall err, client_New (URL state) = Some err ->
        processLog s env state
        = {| result := Failed err; events := []; seen := 0 |}).
Proof.
  destruct (processLog_events_form s env state)
    as (calls & evs & -> & Hall & Hcalls).
  destruct (entry_events_quiet evs Hall) as (Hnor & Hnou & _).
  split; [|split; [|split]].
  - apply Forall_app. split.
    + destruct Hcalls as [->|[->|[size ->]]];
        repeat (constructor; [by intros url [= <-]|]); constructor.
    + eapply Forall_impl; [exact Hall|].
      intros ev Hev url Hurl. by destruct ev as [| | |[]].
  - rewrite omap_app, Hnou, app_nil_r.
    destruct Hcalls as [->|[->|[size ->]]]; unfold request_of; cbn; lia.
  - rewrite filter_app, Hnor, app_nil_r.
    destruct Hcalls as [->|[->|[size ->]]]; unfold request_of; cbn;
      repeat case_decide; cbn; lia.
  - intros err Hnew. unfold processLog. by rewrite Hnew.
Qed.

(** X7: the count a task logs when it leaves is the number of entries
    it has handed to the decoder, however it ends. *)
Theorem processLog_counts_decoded
    (s : server) (env : TaskEnv) (state : LogState) :
  seen (processLog s env state)
  = length (decoded (events (processLog s env state))).
Proof.
  destruct (processLog_path s env state)
    as [err Hn|err Hn Hs|size Hn Hs Hz|size Hn Hs Hz He
        |size err Hn Hs Hz Hne Hr|size entries o w Hn Hs Hz Hne Hr Hloop];
    cbn; try done.
  destruct (process_entries_shape _ _ _ _ _ _ _ _ Hloop)
    as (evs & tail & -> & -> & _). cbn. done.
Qed.

Lemma batch_artifacts_elem s start entries :
  forall i name body,
    (name, body) ∈ batch_artifacts s (indexed start i entries) ->
    exists (k : nat) entry,
      entries !! k = Some entry
      /\ entry_hit s (int64 (start + (i + Z.of_nat k))) entry = Some name
      /\ body = body_of entry.
Proof.
  induction entries as [|entry rest IH]; intros i name body; cbn [indexed].
  { unfold batch_artifacts. cbn. by intros ?%elem_of_nil. }
  rewrite batch_artifacts_cons. intros [Hin|Hin]%elem_of_app.
  - destruct (entry_hit s (int64 (start + i)) entry) as [name'|] eqn:Hhit;
      [|by apply elem_of_nil in Hin].
    apply list_elem_of_singleton in Hin as [= -> ->].
    exists 0%nat, entry. rewrite Z.add_0_r. by repeat split.
  - destruct (IH _ _ _ Hin) as (k & e & Hk & Hhit & ->).
    exists (S k), e. repeat split; [done|].
    replace (i + Z.of_nat (S k)) with (i + 1 + Z.of_nat k) by lia. done.
Qed.

(** What a task has stored is a first part of what the batch it was
    answered holds to store. *)
Lemma processLog_artifacts_prefix s env state :
  artifacts (events (processLog s env state)) = []
  \/ exists size entries tail,
      GetSTH env = Ok size
      /\ GetRawEntries env (int64 (uint64 (LastFetched state + 1)))
                       (int64 size) = Ok entries
      /\ batch_artifacts s
           (indexed (int64 (uint64 (LastFetched state + 1))) 0 entries)
         = artifacts (events (processLog s env state)) ++ tail.
Proof.
  destruct (processLog_path s env state)
    as [err Hn|err Hn Hs|size Hn Hs Hz|size Hn Hs Hz He
        |size err Hn Hs Hz Hne Hr|size entries o w Hn Hs Hz Hne Hr Hloop];
    cbn; try (by left).
  destruct (process_entries_shape _ _ _ _ _ _ _ _ Hloop)
    as (evs & tail & -> & _ & Harts & _).
  right. exists size, entries, tail. by repeat split.
Qed.

(** X8: whatever a task stores is the body of an entry of the batch it
    was answered, stored under the name that entry hits with at the
    index the loop gives it; a task that is answered no batch stores
    nothing. *)
Theorem processLog_stores_only_hits
    (s : server) (env : TaskEnv) (state : LogState) (name body : string) :
  (name, body) ∈ artifacts (events (processLog s env state)) ->
  exists size entries (k : nat) entry,
    GetSTH env = Ok size
    /\ GetRawEntries env (int64 (uint64 (LastFetched state + 1)))
                     (int64 size) = Ok entries
    /\ entries !! k = Some entry
    /\ entry_hit s (int64 (int64 (uint64 (LastFetched state + 1))
                           + Z.of_nat k)) entry = Some name
    /\ body = body_of entry.
Proof.
  intros Hin.
  destruct (processLog_artifacts_prefix s env state)
    as [Hnone|(size & entries & tail & Hsth & Hraw & Harts)].
  { rewrite Hnone in Hin. by apply elem_of_nil in Hin. }
  assert (Hin' : (name, body)
                 ∈ batch_artifacts s
                     (indexed (int64 (uint64 (LastFetched state + 1))) 0
                              entries)).
  { rewrite Harts. apply elem_of_app. by left. }
  destruct (batch_artifacts_elem _ _ _ _ _ _ Hin')
    as (k & entry & Hk & Hhit & ->).
  exists size, entries, k, entry. by rewrite Z.add_0_l in Hhit.
Qed.

(** X9: a write that the store refuses is the last thing a task does:
    nothing is decoded or written after it, no write before it was
    refused, and the task returns the error of the store. *)
Theorem processLog_stops_at_refused_write
    (s : server) (env : TaskEnv) (state : LogState) :
  Exists is_failed_artifact_write (events (processLog s env state)) ->
  (exists evs key body,
      events (processLog s env state) = evs ++ [EvPutObject key body false]
      /\ Forall (fun ev => ~ is_failed_artifact_write ev) evs)
  /\ exists err, result (processLog s env state)
                 = Failed (S3PutObjectErr err).
Proof.
  intros Hex. split; [|by apply processLog_events].
  revert Hex.
  destruct (processLog_path s env state)
    as [err Hn|err Hn Hs|size Hn Hs Hz|size Hn Hs Hz He
        |size err Hn Hs Hz Hne Hr|size entries o w Hn Hs Hz Hne Hr Hloop];
    cbn;
    try (intros Hx; repeat (apply Exists_cons in Hx as [Hx|Hx]; [done|]);
         by apply Exists_nil in Hx).
  destruct (process_entries_shape _ _ _ _ _ _ _ _ Hloop)
    as (evs & tail & -> & _ & _ & Hlast).
  cbn. intros Hx. repeat (apply Exists_cons in Hx as [Hx|Hx]; [done|]).
  destruct (Hlast Hx) as (evs0 & key & body & -> & Hclean).
  exists (EvGetSTH (URL state) :: request_of state size :: evs0), key, body.
  split; [done|]. repeat (constructor; [cbn; tauto|]). done.
Qed.

(** X10: for a watermark from 1 to below 2^63 - 1 and a different size
    below 2^63, the one range a task asks for starts one above the
    watermark and ends at the size. *)
Theorem processLog_range_bounds
    (s : server) (env : TaskEnv) (state : LogState) (size : Z) :
  client_New (URL state) = None ->
  GetSTH env = Ok size ->
  0 < LastFetched state < 2 ^ 63 - 1 ->
  0 <= size < 2 ^ 63 ->
  size <> LastFetched state ->
  filter is_range_request (events (processLog s env state))
  = [EvGetRawEntries (URL state) (LastFetched state + 1) size].
Proof.
  intros Hnew Hsth Hl Hsz Hne.
  assert (Hreq : request_of state size
                 = EvGetRawEntries (URL state) (LastFetched state + 1) size).
  { unfold request_of. rewrite int64_uint64_succ by lia.
    by rewrite int64_small by lia. }
  destruct (processLog_path s env state)
    as [err Hn|err Hn Hs|size' Hn Hs Hz|size' Hn Hs Hz He
        |size' err Hn Hs Hz Hne' Hr|size' entries o w Hn Hs Hz Hne' Hr Hloop];
    try congruence; try lia.
  - rewrite Hsth in Hs. inversion Hs; subst. cbn [events].
    by rewrite Hreq.
  - rewrite Hsth in Hs. inversion Hs; subst.
    destruct (process_entries_inv _ _ _ _ _ _ _ _ Hloop)
      as (evs & -> & Hall & _ & _).
    destruct (entry_events_quiet evs Hall) as (Hnor & _ & _).
    cbn [events trace]. rewrite filter_app, Hnor, Hreq. done.
Qed.

End TaskMore.

(** ** More on the run *)

Section RunMore.
Context {RE : RegexpLib} {CT : CTLib} {CD : CodecLib}.

Lemma launch_log_key states operator log :
  task_key <$> launch_log states operator log
  = if bool_decide (loglist3.State log = loglist3.UsableLogStatus)
    then [loglist3.URL log] else [].
Proof.
  unfold launch_log.
  repeat case_bool_decide; try done; try contradiction.
  by destruct (states ≫= _).
Qed.

Lemma launch_keys states logList :
  task_key <$> launch states logList
  = loglist3.URL <$> usable_logs logList.
Proof.
  unfold launch, usable_logs.
  induction (loglist3.Operators logList) as [|operator ops IH]; [done|].
  rewrite !bind_cons, filter_app, !fmap_app, IH. f_equal.
  induction (loglist3.Logs operator) as [|log logs IHl]; [done|].
  rewrite bind_cons, fmap_app, IHl, launch_log_key, filter_cons.
  case_bool_decide; by case_decide.
Qed.

Lemma launch_state_url states logList t :
  (forall m, states = Some m -> keyed_by_url m) ->
  t ∈ launch states logList ->
  URL (task_state t) = task_key t
  /\ (task_shared t = false -> LastFetched (task_state t) = 0).
Proof.
  intros Hkeyed Ht. unfold launch in Ht.
  apply list_elem_of_bind in Ht as (operator & Ht & _).
  apply list_elem_of_bind in Ht as (log & Ht & _).
  unfold launch_log in Ht. case_bool_decide; [by apply elem_of_nil in Ht|].
  destruct states as [m|]; cbn in Ht.
  - destruct (m !! loglist3.URL log) as [state|] eqn:Hl;
      apply list_elem_of_singleton in Ht; subst; cbn; [|done].
    split; [|done]. by eapply (Hkeyed m).
  - apply list_elem_of_singleton in Ht. by subst.
Qed.

Lemma fst_run_tasks s env tasks :
  fst <$> run_tasks s env tasks = tasks.
Proof.
  unfold run_tasks. generalize (task_env env). intros f.
  revert f. induction tasks as [|t tasks IH]; intros f; [done|].
  cbn. f_equal. apply (IH (fun i => f (S i))).
Qed.

(** X12: one task is launched for each usable log of the catalog, in
    the order of the catalog and under the URL of the log; a task
    whose state is not taken from the map starts from a new state with
    that URL and the watermark 0. *)
Theorem launch_usable_logs
    (states : option (gmap string LogState)) (logList : loglist3.LogList) :
  task_key <$> launch states logList = loglist3.URL <$> usable_logs logList
  /\ Forall (fun t => task_shared t = false ->
                      URL (task_state t) = task_key t
                      /\ LastFetched (task_state t) = 0
                      /\ LastFetchedTime (task_state t) = zero_time)
            (launch states logList).
Proof.
  split; [apply launch_keys|].
  apply Forall_forall. intros t Ht Hfresh.
  unfold launch in Ht.
  apply list_elem_of_bind in Ht as (operator & Ht & _).
  apply list_elem_of_bind in Ht as (log & Ht & _).
  unfold launch_log in Ht. case_bool_decide; [by apply elem_of_nil in Ht|].
  destruct (states ≫= _) as [state|];
    apply list_elem_of_singleton in Ht; by subst.
Qed.

(** *** The map the collecting loop builds *)

Lemma collect_untouched sched remaining :
  forall i pending m m' k,
    collect sched i remaining pending (Some m) = Returned (Some m') ->
    (forall tr, tr ∈ pending ->
       task_key tr.1 <> k
       /\ forall st, result tr.2 = Returned st -> URL st <> k) ->
    m' !! k = m !! k.
Proof.
  induction remaining as [|n IH]; intros i pending m m' k; cbn.
  { by intros [= ->]. }
  destruct (receive (sched i) pending) as [[[t r] pending']|] eqn:Hrecv;
    [|done].
  apply receive_Some in Hrecv as (Hin & _ & _ & Hsub).
  destruct (result r) as [state| |] eqn:Hres; [|done..].
  intros Hrun Hfar.
  rewrite (IH _ _ _ _ k Hrun).
  2:{ intros tr Htr. apply Hfar. by apply Hsub. }
  destruct (Hfar _ Hin) as [Hkey Hurl]. cbn in Hkey, Hurl.
  rewrite lookup_insert_ne by (by apply Hurl).
  destruct (task_shared t); [by rewrite lookup_insert_ne|done].
Qed.

Lemma NoDup_fmap_delete {A B : Type} (f : A -> B) (l : list A) j x :
  NoDup (f <$> l) -> l !! j = Some x ->
  NoDup (f <$> delete j l) /\ f x ∉ f <$> delete j l.
Proof.
  intros Hnd Hl. rewrite delete_take_drop.
  rewrite <- (take_drop_middle _ _ _ Hl) in Hnd.
  rewrite fmap_app, fmap_cons in Hnd. rewrite fmap_app.
  apply NoDup_app in Hnd as (Hnd1 & Hdisj & Hnd2).
  apply NoDup_cons in Hnd2 as [Hx Hnd2]. split.
  - apply NoDup_app. split; [done|]. split; [|done].
    intros y Hy1 Hy2. apply (Hdisj y Hy1). by right.
  - intros [Hin|Hin]%elem_of_app; [|done].
    apply (Hdisj _ Hin). by left.
Qed.

Lemma collect_merged sched remaining :
  forall i pending m m',
    length pending = remaining ->
    NoDup ((fun tr : Task * TaskRun => task_key tr.1) <$> pending) ->
    (forall tr st, tr ∈ pending -> result tr.2 = Returned st ->
                   URL st = task_key tr.1) ->
    collect sched i remaining pending (Some m) = Returned (Some m') ->
    forall tr, tr ∈ pending ->
      exists st, result tr.2 = Returned st /\ m' !! task_key tr.1 = Some st.
Proof.
  induction remaining as [|n IH]; intros i pending m m' Hlen Hnd Hurl; cbn.
  { destruct pending; [|done]. by intros _ tr ?%elem_of_nil. }
  destruct (receive (sched i) pending) as [[[t r] pending']|] eqn:Hrecv;
    [|done].
  pose proof Hrecv as Hrecv'. unfold receive in Hrecv'.
  destruct (pending !! (sched i mod length pending)%nat) as [x|] eqn:Hl;
    [|done].
  inversion Hrecv'; subst x pending'. clear Hrecv'.
  apply receive_Some in Hrecv as (Hin & Hl' & Hsplit & Hsub).
  destruct (NoDup_fmap_delete _ _ _ _ Hnd Hl) as [Hnd' Hfresh].
  cbn in Hfresh.
  destruct (result r) as [state| |] eqn:Hres; [|done..].
  intros Hrun tr Htr.
  pose proof (Hurl _ _ Hin Hres) as Hstate. cbn in Hstate.
  destruct (Hsplit _ Htr) as [->|Htr'].
  - exists state. split; [done|]. cbn.
    rewrite (collect_untouched _ _ _ _ _ _ (task_key t) Hrun).
    + rewrite <- Hstate. apply lookup_insert_eq.
    + intros tr' Htr'.
      assert (Hne : task_key tr'.1 <> task_key t).
      { intros Heq. apply Hfresh. rewrite <- Heq.
        apply list_elem_of_fmap. by exists tr'. }
      split; [done|]. intros st Hst.
      by rewrite (Hurl _ _ (Hsub _ Htr') Hst).
  - assert (Hlen' : length (delete (sched i mod length pending)%nat pending)
                    = n) by lia.
    assert (Hurl' : forall tr0 st,
               tr0 ∈ delete (sched i mod length pending)%nat pending ->
               result tr0.2 = Returned st -> URL st = task_key tr0.1).
    { intros tr0 st Htr0. apply Hurl. by apply Hsub. }
    exact (IH _ _ _ _ Hlen' Hnd' Hurl' Hrun tr Htr').
Qed.

(** X13: when the usable logs of the catalog have distinct URLs and
    every state of the map read is stored under its own URL, the map
    the collecting loop ends with holds, under the URL of each usable
    log, the state the task of that log returned, and under every
    other key what it held before; and it is again a map whose states
    are stored under their own URLs. *)
Theorem collected_map
    (s : server) (env : RunEnv) (m m' : gmap string LogState)
    (logList : loglist3.LogList) :
  keyed_by_url m ->
  NoDup (loglist3.URL <$> usable_logs logList) ->
  collect (select_sender env) 0 (length (launch (Some m) logList))
          (run_tasks s env (launch (Some m) logList)) (Some m)
  = Returned (Some m') ->
  (forall tr, tr ∈ run_tasks s env (launch (Some m) logList) ->
      exists st, result tr.2 = Returned st /\ m' !! task_key tr.1 = Some st)
  /\ (forall k, k ∉ loglist3.URL <$> usable_logs logList ->
        m' !! k = m !! k)
  /\ keyed_by_url m'.
Proof.
  intros Hkeyed Hnd Hrun.
  set (tasks := launch (Some m) logList) in *.
  assert (Hkeys : (fun tr : Task * TaskRun => task_key tr.1)
                    <$> run_tasks s env tasks
                  = loglist3.URL <$> usable_logs logList).
  { rewrite <- launch_keys with (states := Some m). fold tasks.
    rewrite <- (fst_run_tasks s env tasks) at 2.
    by rewrite <- list_fmap_compose. }
  assert (Hurl : forall tr st,
             tr ∈ run_tasks s env tasks -> result tr.2 = Returned st ->
             URL st = task_key tr.1).
  { intros tr st Htr Hres.
    destruct (run_tasks_elem _ _ _ _ Htr) as (i & Hi & Heq).
    rewrite Heq in Hres.
    apply processLog_keeps_identity_aux in Hres. rewrite Hres.
    eapply launch_state_url; [|by eapply list_elem_of_lookup_2].
    by intros ? [= <-]. }
  assert (Hlen : length (run_tasks s env tasks) = length tasks)
    by (unfold run_tasks; by rewrite length_imap).
  assert (Hnd' : NoDup ((fun tr : Task * TaskRun => task_key tr.1)
                          <$> run_tasks s env tasks)) by (by rewrite Hkeys).
  pose proof (collect_merged (select_sender env) (length tasks) 0
                (run_tasks s env tasks) m m' Hlen Hnd' Hurl Hrun)
    as Hmerged.
  assert (Hother : forall k, k ∉ loglist3.URL <$> usable_logs logList ->
                             m' !! k = m !! k).
  { intros k Hk. eapply collect_untouched; [exact Hrun|].
    intros tr Htr.
    assert (Hne : task_key tr.1 <> k).
    { intros <-. apply Hk. rewrite <- Hkeys.
      apply list_elem_of_fmap. by exists tr. }
    split; [done|]. intros st Hst. by rewrite (Hurl _ _ Htr Hst). }
  split; [done|]. split; [done|].
  intros k st Hk.
  destruct (decide (k ∈ loglist3.URL <$> usable_logs logList)) as [Hin|Hout].
  - rewrite <- Hkeys in Hin.
    apply list_elem_of_fmap in Hin as (tr & -> & Htr).
    destruct (Hmerged _ Htr) as (st' & Hres & Hl).
    rewrite Hl in Hk. inversion Hk; subst. by eapply Hurl.
  - rewrite (Hother _ Hout) in Hk. by eapply Hkeyed.
Qed.

(** *** The nil map *)

Lemma collect_nil_map sched remaining i pending :
  remaining <> 0%nat ->
  forall final, collect sched i remaining pending None <> Returned final.
Proof.
  destruct remaining as [|n]; [done|]. intros _ final. cbn.
  destruct (receive (sched i) pending) as [[[t r] pending']|]; [|done].
  by destruct (result r).
Qed.

(** X14: when the state file holds the text that decodes to the nil
    map and the catalog has a usable log, the run does not come to its
    end: the first task that returns makes the loop write into the nil
    map, so the run stops or ends with an error, and the state file is
    not written. *)
Theorem nil_state_map_stops_run
    (env : RunEnv) (conf : Config) (logList : loglist3.LogList)
    (ps : list Regexp) :
  os_Getenv_bucket env <> EmptyString ->
  config_LoadDefaultConfig env = None ->
  loadConfig env = Ok conf ->
  fetchLogState env = Ok None ->
  fetchLogList env = Ok logList ->
  compile_patterns (Patterns conf) = Ok ps ->
  usable_logs logList <> [] ->
  ((exists e, run_result (Handler env) = Failed e)
   \/ run_result (Handler env) = Panicked)
  /\ Forall (fun ev => ~ is_state_write ev) (run_events (Handler env)).
Proof.
  intros Hb Haws Hconf Hstate Hlist Hcomp Husable.
  unfold Handler, load_all.
  rewrite bool_decide_eq_false_2 by done.
  rewrite Haws, Hstate, Hconf, Hlist, Hcomp.
  unfold sync_and_persist.
  assert (Hlen : length (launch None logList) <> 0%nat).
  { intros Hl. apply Husable.
    apply (fmap_nil_inv loglist3.URL).
    rewrite <- (launch_keys None).
    by destruct (launch None logList). }
  pose proof (collect_nil_map (select_sender env) _ 0
                (run_tasks {| bucket := os_Getenv_bucket env; conf := conf;
                              patterns := ps |} env (launch None logList))
                Hlen) as Hno.
  destruct (collect _ _ _ _ None) as [final|e|]; [by destruct (Hno final)|..];
    cbn; (split; [by eauto|]);
    apply task_events_Forall; intros tr Hin;
    apply run_tasks_elem in Hin as (j & _ & ->); apply processLog_events.
Qed.

(** *** The patterns *)

(** X15: the patterns compile to a list exactly when each of them
    compiles, and the list holds their compiled forms in order; when
    they do not, the error names the first pattern that does not
    compile. *)
Theorem compile_patterns_spec (patternStrs : list string) :
  (forall rs,
      compile_patterns patternStrs = Ok rs <->
      Forall2 (fun p r => regexp_Compile p = Some r) patternStrs rs)
  /\ (forall err,
         compile_patterns patternStrs = Fail err ->
         exists pre p post,
           patternStrs = pre ++ p :: post
           /\ Forall (fun q => is_Some (regexp_Compile q)) pre
           /\ regexp_Compile p = None
           /\ err = CompilePatternErr p).
Proof.
  induction patternStrs as [|p rest [IHok IHfail]]; cbn.
  { split; [|done]. intros rs. split.
    - intros [= <-]. constructor.
    - by intros ->%Forall2_nil_inv_l. }
  destruct (regexp_Compile p) as [r|] eqn:Hp.
  - destruct (compile_patterns rest) as [rs'|e] eqn:Hrest.
    + split; [|done]. intros rs. split.
      * intros [= <-]. constructor; [done|]. by apply IHok.
      * intros (r' & rs'' & Hr & Hall & ->)%Forall2_cons_inv_l.
        apply IHok in Hall. congruence.
    + split.
      * intros rs. split; [done|].
        intros (r' & rs'' & Hr & Hall & ->)%Forall2_cons_inv_l.
        by apply IHok in Hall.
      * intros err [= <-].
        destruct (IHfail e eq_refl) as (pre & q & post & -> & Hpre & Hq & ->).
        exists (p :: pre), q, post. repeat split; try done.
        constructor; [by rewrite Hp|done].
  - split.
    + intros rs. split; [done|].
      intros (r' & rs'' & Hr & _)%Forall2_cons_inv_l. congruence.
    + intros err [= <-]. exists [], p, rest. by repeat split.
Qed.

(** *** The writes of a run *)

Lemma bucket_after_app evs1 evs2 objects :
  bucket_after (evs1 ++ evs2) objects
  = bucket_after evs2 (bucket_after evs1 objects).
Proof.
  revert objects. induction evs1 as [|ev evs1 IH]; intros objects; [done|].
  destruct ev as [| | |key body []]; cbn; apply IH.
Qed.

Lemma bucket_after_unwritten evs k :
  Forall (fun ev => event_key ev <> Some k) evs ->
  forall objects, bucket_after evs objects k = objects k.
Proof.
  induction 1 as [|ev evs Hev _ IH]; intros objects; [done|].
  destruct ev as [| | |key body []]; cbn; try apply IH.
  rewrite IH. case_bool_decide as Hk; [|done].
  subst. by destruct Hev.
Qed.

Lemma task_writes_cert_keys s env state :
  Forall (fun ev => forall key, event_key ev = Some key -> is_cert_key key)
         (events (processLog s env state)).
Proof.
  destruct (processLog_events_form s env state)
    as (calls & evs & -> & Hall & Hcalls).
  apply Forall_app. split; [|by apply entry_events_quiet].
  destruct Hcalls as [->|[->|[size ->]]];
    repeat (constructor; [by intros key [= ]|]); constructor.
Qed.

Lemma sync_and_persist_tail s env states logList :
  exists tail,
    run_events (sync_and_persist s env states logList)
    = task_events (run_tasks s env (launch states logList)) ++ tail
    /\ ((tail = []
         /\ run_result (sync_and_persist s env states logList) <> Returned tt)
        \/ (exists body err,
               tail = [EvPutObject logStateKey body false]
               /\ run_result (sync_and_persist s env states logList)
                  = Failed (PutStateErr err))
        \/ (exists final body,
               tail = [EvPutObject logStateKey body true]
               /\ run_result (sync_and_persist s env states logList)
                  = Returned tt
               /\ collect (select_sender env) 0
                    (length (launch states logList))
                    (run_tasks s env (launch states logList)) states
                  = Returned final
               /\ json_Marshal_states final = Ok body)).
Proof.
  unfold sync_and_persist.
  destruct (collect _ _ _ _ _) as [final|e|] eqn:Hc; cbn;
    try (exists []; rewrite app_nil_r; split; [done|]; by left).
  destruct (json_Marshal_states final) as [statesTxt|e] eqn:Hm; cbn;
    [|exists []; rewrite app_nil_r; split; [done|]; by left].
  destruct (PutObject_state env statesTxt) as [err|]; cbn;
    (eexists; split; [done|]; right); [left|right].
  - by eauto.
  - exists final, statesTxt. by repeat split.
Qed.

Lemma Handler_events_form (env : RunEnv) :
  exists evs tail,
    run_events (Handler env) = evs ++ tail
    /\ Forall (fun ev => forall key, event_key ev = Some key ->
                                     is_cert_key key) evs
    /\ ((tail = [] /\ run_result (Handler env) <> Returned tt)
        \/ (exists body err,
               tail = [EvPutObject logStateKey body false]
               /\ run_result (Handler env) = Failed (PutStateErr err))
        \/ (exists body,
               tail = [EvPutObject logStateKey body true]
               /\ run_result (Handler env) = Returned tt)).
Proof.
  unfold Handler.
  case_bool_decide; [exists [], []; by eauto|].
  destruct (config_LoadDefaultConfig env); [exists [], []; by eauto|].
  destruct (load_all env) as [[[conf states] logList]|];
    [|exists [], []; by eauto].
  destruct (compile_patterns (Patterns conf)) as [ps|];
    [|exists [], []; by eauto].
  match goal with
  | |- context [sync_and_persist ?s env states logList] =>
      destruct (sync_and_persist_tail s env states logList)
        as (tail & -> & Htail);
      exists (task_events (run_tasks s env (launch states logList))), tail
  end.
  split; [done|]. split.
  - apply task_events_Forall. intros tr Hin.
    apply run_tasks_elem in Hin as (j & _ & ->).
    apply task_writes_cert_keys.
  - destruct Htail as [?|[?|(final & body & ? & ? & _)]]; by eauto 6.
Qed.

(** X16: a run writes the state file at most once, as the last thing
    it does; the run succeeds exactly when that write is made and
    succeeds, and the bucket then holds under the key of the state
    file the text that was written. *)
Theorem Handler_writes_state_last (env : RunEnv) :
  exists evs tail,
    run_events (Handler env) = evs ++ tail
    /\ Forall (fun ev => ~ is_state_write ev) evs
    /\ (tail = [] \/ exists body ok, tail = [EvPutObject logStateKey body ok])
    /\ (run_result (Handler env) = Returned tt <->
        exists body, tail = [EvPutObject logStateKey body true])
    /\ (forall body objects,
           tail = [EvPutObject logStateKey body true] ->
           bucket_after (run_events (Handler env)) objects logStateKey
           = Some body).
Proof.
  destruct (Handler_events_form env) as (evs & tail & Hev & Hkeys & Htail).
  exists evs, tail. split; [done|]. split.
  { eapply Forall_impl; [exact Hkeys|]. intros ev Hev' Hw.
    destruct ev as [| | |[] body ok]; cbn in Hw; try done.
    by apply (Hev' logStateKey). }
  split.
  { destruct Htail as [[-> _]|[(b & e & -> & _)|(b & -> & _)]]; by eauto. }
  split.
  { destruct Htail as [[-> Hno]|[(b & e & -> & Hres)|(b & -> & Hres)]].
    - split; [done|]. by intros [? ?].
    - rewrite Hres. split; [done|]. by intros [? ?].
    - split; by eauto. }
  intros body objects ->. rewrite Hev, bucket_after_app. cbn.
  by rewrite bool_decide_eq_true_2.
Qed.

(** X17: every write of a run is the write of an artifact or of the
    state file: the configuration in the bucket is what it was before
    the run, and so is every object that is not an artifact or the
    state file. *)
Theorem Handler_writes_only_artifacts_and_state (env : RunEnv) :
  Forall (fun ev => forall key, event_key ev = Some key ->
                      is_cert_key key \/ key = logStateKey)
         (run_events (Handler env))
  /\ (forall objects,
         bucket_after (run_events (Handler env)) objects ConfigKey
         = objects ConfigKey).
Proof.
  destruct (Handler_events_form env) as (evs & tail & -> & Hkeys & Htail).
  assert (Hall : Forall (fun ev => forall key, event_key ev = Some key ->
                                     is_cert_key key \/ key = logStateKey)
                        (evs ++ tail)).
  { apply Forall_app. split.
    - eapply Forall_impl; [exact Hkeys|]. cbn. by eauto.
    - destruct Htail as [[-> _]|[(b & e & -> & _)|(b & -> & _)]];
        repeat (constructor; [by intros key [= <-]; right|]); constructor. }
  split; [done|].
  apply bucket_after_unwritten.
  eapply Forall_impl; [exact Hall|]. cbn. intros ev Hev Hk.
  by destruct (Hev _ Hk).
Qed.

End RunMore.

(** ** The conversion tool *)

Section ToolFacts.
Context {RE : RegexpLib} {CT : CTLib} {CD : CodecLib}.
Context {PL : JsonToCert.PrintLib}.
Import JsonToCert.

Lemma select_printer_None (format : string) :
  select_printer format = None <->
  format <> "text" /\ format <> "json" /\ format <> "pem".
Proof.
  unfold select_printer. repeat case_bool_decide; split; try done;
    intros (? & ? & ?); done.
Qed.

(** X18: a format other than text, json and pem ends the tool before
    the arguments are looked at, and a command line without a path
    ends it next: in both cases no file is opened and nothing is
    printed. *)
Theorem tool_checks_command_line (env : ToolEnv) :
  (flag_format env <> "text" -> flag_format env <> "json" ->
   flag_format env <> "pem" ->
   main env
   = {| tool_exit := Fatal InvalidFormat; stdout := []; opened := [] |})
  /\ (select_printer (flag_format env) <> None ->
      flag_Args env = [] ->
      main env = {| tool_exit := Fatal Usage; stdout := []; opened := [] |}).
Proof.
  split.
  - intros H1 H2 H3. unfold main.
    by rewrite (proj2 (select_printer_None _)).
  - intros Hf Ha. unfold main. rewrite Ha.
    by destruct (select_printer (flag_format env)).
Qed.

Lemma printFunc_form f cert :
  ((printFunc f cert).1 <> None -> (printFunc f cert).2 = [])
  /\ (length (printFunc f cert).2 <= 1)%nat.
Proof.
  destruct f, cert as [c|]; unfold printFunc, printText, printJson, printPem;
    repeat match goal with
           | |- context [match ?x with _ => _ end] => destruct x; cbn
           end;
    cbn; (split; [intros H; first [done|by destruct H]|cbn; lia]).
Qed.

(** X19: the tool prints at most one line, and only when it ends well;
    it opens no other file than the first path of the command line,
    and that at most once. *)
Theorem tool_output (env : ToolEnv) :
  (tool_exit (main env) <> Exit0 -> stdout (main env) = [])
  /\ (length (stdout (main env)) <= 1)%nat
  /\ (opened (main env) = []
      \/ exists path rest,
          flag_Args env = path :: rest /\ opened (main env) = [path]).
Proof.
  unfold main.
  destruct (select_printer (flag_format env)) as [f|]; cbn; [|by eauto].
  destruct (flag_Args env) as [|path rest]; cbn; [by eauto|].
  assert (Hfin : forall p,
             ((p.1 <> None -> p.2 = []) /\ (length p.2 <= 1)%nat) ->
             (tool_exit (finish path p) <> Exit0 -> stdout (finish path p) = [])
             /\ (length (stdout (finish path p)) <= 1)%nat
             /\ (opened (finish path p) = []
                 \/ exists path0 rest0,
                     path :: rest = path0 :: rest0
                     /\ opened (finish path p) = [path0])).
  { intros [[e|] out] [Hq Hlen]; cbn in *.
    - split; [intros _; by apply Hq|]. split; [done|]. by eauto.
    - split; [done|]. split; [done|]. by eauto. }
  assert (Hstop : forall e : exit,
             ((e <> Exit0 -> @nil string = []) /\ (0 <= 1)%nat
              /\ ([path] = []
                  \/ exists path0 rest0,
                      path :: rest = path0 :: rest0 /\ [path] = [path0])))
    by (intros e; split; [done|]; split; [lia|]; right; by eauto).
  destruct (os_Open env path) as [[txt|]|]; cbn; try apply Hstop.
  destruct (json_Decode_leaf txt) as [rawEntry|]; cbn; try apply Hstop.
  destruct (ct_LogEntryFromLeaf 0 rawEntry) as [[le|] [err|]]; cbn;
    try apply Hstop.
  destruct (X509Cert le), (Precert le); apply Hfin;
    try apply printFunc_form. cbn. split; [done|lia].
Qed.

Lemma batch_artifacts_hit s start entries :
  forall i (k : nat) entry name,
    entries !! k = Some entry ->
    entry_hit s (int64 (start + (i + Z.of_nat k))) entry = Some name ->
    (name, body_of entry) ∈ batch_artifacts s (indexed start i entries).
Proof.
  induction entries as [|e rest IH]; intros i k entry name Hk Hhit; [done|].
  cbn [indexed]. rewrite batch_artifacts_cons. apply elem_of_app.
  destruct k as [|k]; cbn in Hk.
  - inversion Hk; subst. left. rewrite Z.add_0_r in Hhit.
    rewrite Hhit. by left.
  - right. apply (IH (i + 1) k); [done|].
    by replace (i + 1 + Z.of_nat k) with (i + Z.of_nat (S k)) by lia.
Qed.


End ToolFacts.

(** ** More concrete runs *)

Section MoreConcrete.

#[local] Existing Instance suffix_engine.
#[local] Existing Instance example_ct.
#[local] Existing Instance example_codec.
#[local] Existing Instance example_print.

(** X1 on a certificate whose second name is the first to match. *)
Lemma X1_witness :
  nameMatches example_server
    {| DNSNames := ["a.example"; "www.google.com"; "google.com"] |}
  = (true, "www.google.com", "domain-google.com")
  /\ exists pre post,
      ["a.example"; "www.google.com"; "google.com"]
      = pre ++ "www.google.com" :: post
      /\ Forall (fun n => ~ name_hits example_server n) pre.
Proof.
  split; [reflexivity|].
  apply (nameMatches_first_match example_server
           {| DNSNames := ["a.example"; "www.google.com"; "google.com"] |}
           "www.google.com" "domain-google.com" eq_refl).
Defined.

(** X3 on google.com and a label in front of it. *)
Lemma X3_witness :
  domainMatches "google.com" "google.com" = true
  /\ domainMatches ("mail" +:+ "." +:+ "google.com") "google.com" = true.
Proof.
  split; [reflexivity|].
  apply (domainMatches_subdomain "google.com" "google.com" "mail").
  reflexivity.
Defined.

(** X4 on an advance from 10 to 15. *)
Lemma X4_witness :
  result (processLog example_server (example_env 15 []) (example_state 10))
  = Returned (set_fetched (example_state 10) 15 1000)
  /\ URL (set_fetched (example_state 10) 15 1000) = URL (example_state 10).
Proof.
  split; [reflexivity|].
  apply (processLog_keeps_identity example_server (example_env 15 [])
           (example_state 10) (set_fetched (example_state 10) 15 1000)).
  reflexivity.
Defined.

(** X5 on a run that advances from 10 to 15 and a second run that
    finds the head at 15 again. *)
Lemma X5_witness :
  result (processLog example_server (example_env 15 []) (example_state 10))
  = Returned (set_fetched (example_state 10) 15 1000)
  /\ processLog example_server (example_env 15 [leaf "www.google.com" "cert"])
       (set_fetched (example_state 10) 15 1000)
     = {| result := Returned (set_fetched (example_state 10) 15 1000);
          events := [EvGetSTH "https://log.example/"]; seen := 0 |}.
Proof.
  split; [reflexivity|].
  destruct (@processLog_idempotent suffix_engine example_ct example_codec
              example_server (example_env 15 [])
              (example_env 15 [leaf "www.google.com" "cert"])
              (example_state 10) (set_fetched (example_state 10) 15 1000) 15
              ltac:(reflexivity) ltac:(reflexivity) ltac:(reflexivity)
              ltac:(reflexivity)) as [Hsame _].
  apply Hsame. discriminate.
Defined.

(** X8 on a batch of one entry that matches. *)
Lemma X8_witness :
  ("www.google.com", "www.google.com")
  ∈ artifacts (events (processLog example_server
                         (example_env 15 [leaf "www.google.com" "cert"])
                         (example_state 10)))
  /\ exists size entries (k : nat) entry,
      GetSTH (example_env 15 [leaf "www.google.com" "cert"]) = Ok size
      /\ GetRawEntries (example_env 15 [leaf "www.google.com" "cert"])
           (int64 (uint64 (LastFetched (example_state 10) + 1))) (int64 size)
         = Ok entries
      /\ entries !! k = Some entry
      /\ entry_hit example_server
           (int64 (int64 (uint64 (LastFetched (example_state 10) + 1))
                   + Z.of_nat k)) entry = Some "www.google.com"
      /\ "www.google.com" = body_of entry.
Proof.
  assert (Hin : ("www.google.com", "www.google.com")
                ∈ artifacts (events (processLog example_server
                                (example_env 15 [leaf "www.google.com" "cert"])
                                (example_state 10)))).
  { apply (bool_decide_unpack _). vm_compute. exact I. }
  split; [exact Hin|].
  exact (processLog_stores_only_hits example_server _ _ _ _ Hin).
Defined.

(** X9 on a match that the store refuses, followed by another entry. *)
Lemma X9_witness :
  Exists is_failed_artifact_write
    (events (processLog example_server
               (refusing_env 15 [leaf "www.google.com" "cert";
                                 leaf "mail.google.com" "cert"])
               (example_state 10)))
  /\ exists err,
      result (processLog example_server
                (refusing_env 15 [leaf "www.google.com" "cert";
                                  leaf "mail.google.com" "cert"])
                (example_state 10))
      = Failed (S3PutObjectErr err).
Proof.
  assert (Hex : Exists is_failed_artifact_write
                  (events (processLog example_server
                             (refusing_env 15 [leaf "www.google.com" "cert";
                                               leaf "mail.google.com" "cert"])
                             (example_state 10)))).
  { apply (bool_decide_unpack _). vm_compute. exact I. }
  split; [exact Hex|].
  apply (processLog_stops_at_refused_write example_server _ _ Hex).
Defined.

(** X10 on an advance from 10 to 15. *)
Lemma X10_witness :
  0 < LastFetched (example_state 10) < 2 ^ 63 - 1
  /\ filter is_range_request
       (events (processLog example_server (example_env 15 [])
                  (example_state 10)))
     = [EvGetRawEntries "https://log.example/" 11 15].
Proof.
  split; [cbn; lia|].
  apply (@processLog_range_bounds suffix_engine example_ct example_codec
           example_server (example_env 15 []) (example_state 10) 15);
    [reflexivity|reflexivity|cbn; lia|lia|discriminate].
Defined.

Lemma example_map_keyed :
  keyed_by_url {[ "https://log.example/" := example_state 10 ]}.
Proof.
  intros k st Hl. apply lookup_singleton_Some in Hl as [<- <-]. reflexivity.
Qed.

(** X13 on the example log, found at 10 in the map and then at 15. *)
Lemma X13_witness :
  keyed_by_url {[ "https://log.example/" := example_state 10 ]}
  /\ NoDup (loglist3.URL <$> usable_logs example_catalog)
  /\ keyed_by_url
       {[ "https://log.example/" := set_fetched (example_state 10) 15 1000 ]}.
Proof.
  assert (Hnd : NoDup (loglist3.URL <$> usable_logs example_catalog)).
  { apply (bool_decide_unpack _). vm_compute. exact I. }
  split; [exact example_map_keyed|]. split; [exact Hnd|].
  apply (@collected_map suffix_engine example_ct example_codec
           example_server
           (example_run "google" (Ok (Ok "at10")) (example_env 15 []))
           {[ "https://log.example/" := example_state 10 ]}
           {[ "https://log.example/" := set_fetched (example_state 10) 15 1000 ]}
           example_catalog example_map_keyed Hnd).
  vm_compute. reflexivity.
Defined.

(** X14 on a state file that holds the text null. *)
Lemma X14_witness :
  fetchLogState (example_run "google" (Ok (Ok "null")) (example_env 15 []))
  = Ok None
  /\ run_result
       (Handler (example_run "google" (Ok (Ok "null")) (example_env 15 [])))
     = Panicked
  /\ Forall (fun ev => ~ is_state_write ev)
       (run_events
          (Handler (example_run "google" (Ok (Ok "null"))
                      (example_env 15 [])))).
Proof.
  split; [reflexivity|]. split; [reflexivity|].
  apply (@nil_state_map_stops_run suffix_engine example_ct example_codec
           (example_run "google" (Ok (Ok "null")) (example_env 15 []))
           example_conf example_catalog []);
    try reflexivity; discriminate.
Defined.


End MoreConcrete.

(** ** Precertificates *)

Section Precertificates.
Context {RE : RegexpLib} {CT : CTLib} {CD : CodecLib}.


End Precertificates.

Section PrecertificatesConcrete.

#[local] Existing Instance suffix_engine.
#[local] Existing Instance example_ct.
#[local] Existing Instance example_codec.


End PrecertificatesConcrete.

(** ** The state file from run to run *)

Section PersistenceFacts.
Context {RE : RegexpLib} {CT : CTLib} {CD : CodecLib}.

Lemma load_all_states env conf states logList :
  load_all env = Ok (conf, states, logList) ->
  states = starting_states env.
Proof.
  unfold load_all, starting_states.
  destruct (loadConfig env), (fetchLogList env); try done.
  - by intros [= _ <- _].
  - by destruct (select_config_error_first env).
Qed.

(** The loop that starts from a map ends with a map, and the one that
    starts from the nil map with the nil map. *)
Lemma collect_some sched remaining :
  forall i pending m final,
    collect sched i remaining pending (Some m) = Returned final ->
    exists m', final = Some m'.
Proof.
  induction remaining as [|n IH]; intros i pending m final; cbn.
  { intros [= <-]. by eexists. }
  destruct (receive (sched i) pending) as [[[t r] pending']|]; [|done].
  destruct (result r); [|done..]. apply IH.
Qed.

Lemma collect_none sched remaining i pending final :
  collect sched i remaining pending None = Returned final ->
  final = None.
Proof.
  destruct remaining as [|n]; cbn; [by intros [= <-]|].
  destruct (receive (sched i) pending) as [[[t r] pending']|]; [|done].
  by destruct (result r).
Qed.

(** The loop removes no key. *)
Lemma collect_keeps sched remaining :
  forall i pending m m' k,
    collect sched i remaining pending (Some m) = Returned (Some m') ->
    is_Some (m !! k) -> is_Some (m' !! k).
Proof.
  induction remaining as [|n IH]; intros i pending m m' k; cbn.
  { by intros [= ->]. }
  destruct (receive (sched i) pending) as [[[t r] pending']|]; [|done].
  destruct (result r) as [state| |]; [|done..].
  intros Hrun Hk. eapply IH; [exact Hrun|].
  destruct (decide (URL state = k)) as [->|Hne];
    [by rewrite lookup_insert_eq|].
  rewrite lookup_insert_ne by done.
  destruct (task_shared t); [|done].
  destruct (decide (task_key t = k)) as [->|Hne'];
    [by rewrite lookup_insert_eq|by rewrite lookup_insert_ne].
Qed.

(** Whatever the map holds at the end of the loop was in it at the
    start, or is the state a task returned, written under the URL of
    that state or under the key of the task. *)
Lemma collect_origin sched remaining :
  forall i pending m m' k st,
    collect sched i remaining pending (Some m) = Returned (Some m') ->
    m' !! k = Some st ->
    m !! k = Some st
    \/ exists tr, tr ∈ pending /\ result tr.2 = Returned st
                  /\ (URL st = k
                      \/ (task_shared tr.1 = true /\ task_key tr.1 = k)).
Proof.
  induction remaining as [|n IH]; intros i pending m m' k st; cbn.
  { intros [= ->]. by left. }
  destruct (receive (sched i) pending) as [[[t r] pending']|] eqn:Hrecv;
    [|done].
  apply receive_Some in Hrecv as (Hin & _ & _ & Hsub).
  destruct (result r) as [state| |] eqn:Hres; [|done..].
  intros Hrun Hk.
  destruct (IH _ _ _ _ _ _ Hrun Hk) as [Hold|(tr & Htr & Hr & Hwhere)].
  2:{ right. exists tr. split; [by apply Hsub|done]. }
  destruct (decide (URL state = k)) as [Heq|Hne].
  { subst k. rewrite lookup_insert_eq in Hold. inversion Hold; subst.
    right. exists (t, r). split; [done|]. split; [done|by left]. }
  rewrite lookup_insert_ne in Hold by done.
  destruct (task_shared t) eqn:Hshared; [|by left].
  destruct (decide (task_key t = k)) as [Heq|Hne'].
  { subst k. rewrite lookup_insert_eq in Hold. inversion Hold; subst.
    right. exists (t, r). split; [done|]. split; [done|by right]. }
  rewrite lookup_insert_ne in Hold by done. by left.
Qed.

(** A launched task has the state the map holds under its key, or a
    new state of the log when the map holds none. *)
Lemma launch_lookup m logList t :
  t ∈ launch (Some m) logList ->
  (task_shared t = true /\ m !! task_key t = Some (task_state t))
  \/ (task_shared t = false /\ m !! task_key t = None
      /\ URL (task_state t) = task_key t
      /\ LastFetched (task_state t) = 0).
Proof.
  intros Ht. unfold launch in Ht.
  apply list_elem_of_bind in Ht as (operator & Ht & _).
  apply list_elem_of_bind in Ht as (log & Ht & _).
  unfold launch_log in Ht. case_bool_decide; [by apply elem_of_nil in Ht|].
  cbn in Ht.
  destruct (m !! loglist3.URL log) as [state|] eqn:Hl;
    apply list_elem_of_singleton in Ht; subst; cbn; [by left|by right].
Qed.

(** The watermark a launched task starts from is the one the map holds
    under its key. *)
Lemma launch_watermark m logList t :
  t ∈ launch (Some m) logList ->
  LastFetched (task_state t) = watermark (task_key t) (Some m).
Proof.
  intros Ht. unfold watermark. cbn.
  destruct (launch_lookup m logList t Ht) as [[_ ->]|(_ & -> & _ & ->)];
    done.
Qed.

(** One pass of the collecting loop over the tasks of a run: the map
    stays keyed by URL and no watermark goes down. *)
Lemma collected_step s env logList m m' :
  keyed_by_url m ->
  collect (select_sender env) 0 (length (launch (Some m) logList))
          (run_tasks s env (launch (Some m) logList)) (Some m)
  = Returned (Some m') ->
  (forall i t size,
      launch (Some m) logList !! i = Some t ->
      GetSTH (task_env env i) = Ok size ->
      watermark (task_key t) (Some m) <= size
      \/ (watermark (task_key t) (Some m) <> 0
          /\ exists err,
               GetRawEntries (task_env env i)
                 (int64 (uint64 (watermark (task_key t) (Some m) + 1)))
                 (int64 size)
               = Fail err)) ->
  keyed_by_url m'
  /\ forall k, watermark k (Some m) <= watermark k (Some m').
Proof.
  intros Hkeyed Hrun Hsizes.
  set (tasks := launch (Some m) logList) in *.
  assert (Hfrom : forall k st',
             m' !! k = Some st' ->
             m !! k = Some st'
             \/ exists i t,
                 tasks !! i = Some t /\ task_key t = k /\ URL st' = k
                 /\ result (processLog s (task_env env i) (task_state t))
                    = Returned st').
  { intros k st' Hk.
    destruct (collect_origin _ _ _ _ _ _ _ _ Hrun Hk)
      as [Hold|(tr & Htr & Hres & Hwhere)]; [by left|right].
    destruct (run_tasks_elem _ _ _ _ Htr) as (i & Hi & Heq).
    rewrite Heq in Hres. exists i, tr.1.
    assert (Hurl : URL st' = URL (task_state tr.1)).
    { apply processLog_returns in Hres as [->|(size & now & _ & ->)];
        done. }
    assert (Hkey : URL (task_state tr.1) = task_key tr.1).
    { destruct (launch_lookup m logList tr.1) as [[_ Hl]|(_ & _ & Hu & _)];
        [by eapply list_elem_of_lookup_2| |done].
      by apply Hkeyed in Hl. }
    destruct Hwhere as [Hw|[_ Hw]]; subst k;
      repeat split; try done; congruence. }
  split.
  { intros k st' Hk.
    destruct (Hfrom _ _ Hk) as [Hold|(i & t & _ & _ & Hurl & _)];
      [by eapply Hkeyed|done]. }
  intros k.
  destruct (m' !! k) as [st'|] eqn:Hk.
  2:{ unfold watermark. cbn. rewrite Hk.
      destruct (m !! k) as [st|] eqn:Hmk; [|lia].
      destruct (collect_keeps _ _ _ _ _ _ k Hrun) as [st' Hk'];
        [by rewrite Hmk|congruence]. }
  destruct (Hfrom _ _ Hk) as [Hold|(i & t & Hi & Hkey & _ & Hres)].
  { unfold watermark. cbn. rewrite Hk, Hold. lia. }
  pose proof (launch_watermark m logList t
                ltac:(by eapply list_elem_of_lookup_2)) as Hmark.
  rewrite Hkey in Hmark.
  replace (watermark k (Some m')) with (LastFetched st')
    by (unfold watermark; cbn; by rewrite Hk).
  apply processLog_returns_how in Hres
    as [->|(size & now & Hsth & -> & Hhow)]; [lia|].
  cbn. destruct (Hsizes i t size Hi Hsth) as [Hle|(Hnz & err & Hfail)];
    rewrite Hkey in *; [done|].
  rewrite <- Hmark in Hnz, Hfail.
  destruct Hhow as [Hz|(_ & entries & Hok)]; congruence.
Qed.

(** One run: the file stays keyed by URL and no watermark goes
    down. *)
Lemma file_after_step env file :
  (forall m, file = Some m -> keyed_by_url m) ->
  starts_from env file ->
  never_below env file ->
  (forall m, file_after env file = Some m -> keyed_by_url m)
  /\ forall k, watermark k file <= watermark k (file_after env file).
Proof.
  intros Hkeyed Hstart Hsizes. unfold file_after.
  destruct (run_result (Handler env)) as [u| |];
    [|by split; [|intros; lia]..].
  destruct (collected env) as [final|] eqn:Hc; [|by split; [|intros; lia]].
  unfold collected in Hc. unfold never_below, launched in Hsizes.
  case_bool_decide; [done|].
  destruct (config_LoadDefaultConfig env); [done|].
  destruct (load_all env) as [[[conf states] logList]|] eqn:Hl; [|done].
  destruct (compile_patterns (Patterns conf)) as [ps|]; [|done].
  apply load_all_states in Hl. unfold starts_from in Hstart.
  rewrite Hstart in Hl. subst states.
  destruct (collect _ _ _ _ _) as [final'| |] eqn:Hrun; [|done..].
  inversion Hc; subst final'. clear Hc.
  destruct file as [m|].
  - destruct (collect_some _ _ _ _ _ _ Hrun) as [m' ->].
    destruct (collected_step _ env logList m m' (Hkeyed m eq_refl) Hrun
                Hsizes) as [Hk Hw].
    split; [|done]. by intros ? [= <-].
  - apply collect_none in Hrun. subst final.
    split; [done|]. intros; lia.
Qed.

(** A run writes the state file when it ends well, and then the map
    it collected, marshalled, as its last event; no other run writes
    the file. *)
Lemma file_after_written env file :
  (file_after env file = file
   /\ forall statesTxt,
        EvPutObject logStateKey statesTxt true ∉ run_events (Handler env))
  \/ exists states statesTxt evs,
       collected env = Some states
       /\ json_Marshal_states states = Ok statesTxt
       /\ run_events (Handler env)
          = evs ++ [EvPutObject logStateKey statesTxt true]
       /\ file_after env file = states.
Proof.
  unfold file_after, collected, Handler.
  case_bool_decide; [left; split; [done|cbn; by intros ? ?%elem_of_nil]|].
  destruct (config_LoadDefaultConfig env);
    [left; split; [done|cbn; by intros ? ?%elem_of_nil]|].
  destruct (load_all env) as [[[conf states] logList]|];
    [|left; split; [done|cbn; by intros ? ?%elem_of_nil]].
  destruct (compile_patterns (Patterns conf)) as [ps|];
    [|left; split; [done|cbn; by intros ? ?%elem_of_nil]].
  set (s := {| bucket := os_Getenv_bucket env; conf := conf;
               patterns := ps |}).
  assert (Hquiet : forall statesTxt,
             EvPutObject logStateKey statesTxt true
             ∉ task_events (run_tasks s env (launch states logList))).
  { intros statesTxt Hin.
    assert (Hall : Forall (fun ev => ~ is_state_write ev)
                     (task_events (run_tasks s env (launch states logList)))).
    { apply task_events_Forall. intros tr Htr.
      apply run_tasks_elem in Htr as (i & _ & ->). apply processLog_events. }
    rewrite Forall_forall in Hall. by apply (Hall _ Hin). }
  unfold sync_and_persist.
  destruct (collect _ _ _ _ _) as [final| |]; cbn;
    [|left; split; [done|exact Hquiet]..].
  destruct (json_Marshal_states final) as [statesTxt|] eqn:Hmar; cbn;
    [|left; split; [done|exact Hquiet]].
  destruct (PutObject_state env statesTxt); cbn.
  - left. split; [done|]. intros txt [Hin|Hin]%elem_of_app;
      [by apply (Hquiet txt)|].
    apply list_elem_of_singleton in Hin. discriminate.
  - right. exists final, statesTxt. by eexists.
Qed.

Lemma files_over_above envs :
  forall file k,
    (forall m, file = Some m -> keyed_by_url m) ->
    steady envs file ->
    Forall (fun f => watermark k file <= watermark k f)
           (files_over envs file).
Proof.
  induction envs as [|env envs IH]; intros file k Hkeyed Hsteady; cbn;
    [constructor|].
  destruct Hsteady as (Hstart & Hsizes & Hrest).
  destruct (file_after_step env file Hkeyed Hstart Hsizes) as [Hk Hw].
  constructor; [apply Hw|].
  eapply Forall_impl; [apply (IH _ k Hk Hrest)|].
  cbn. intros f Hf. specialize (Hw k). lia.
Qed.

(** C9, as amended: over any sequence of runs each of which starts
    from the map the state file holds, a map keyed by the URLs of the
    logs, and in none of which a log reports a size below the
    watermark the file holds for it, the watermark of every log in
    the state file never decreases: each is at most every later
    one. *)
Theorem C9_watermark_monotone_over_steady_runs
    (envs : list RunEnv) (file : option (gmap string LogState))
    (k : string) :
  (forall m, file = Some m -> keyed_by_url m) ->
  steady envs file ->
  StronglySorted Z.le (watermark k <$> file :: files_over envs file).
Proof.
  revert file. induction envs as [|env envs IH]; intros file Hkeyed Hsteady.
  { cbn. repeat constructor. }
  rewrite fmap_cons. constructor.
  - cbn [files_over]. destruct Hsteady as (Hstart & Hsizes & Hrest).
    apply IH; [|done].
    by destruct (file_after_step env file Hkeyed Hstart Hsizes).
  - apply Forall_fmap. by apply files_over_above.
Qed.

End PersistenceFacts.

Section PersistenceConcrete.

#[local] Existing Instance suffix_engine.
#[local] Existing Instance example_ct.
#[local] Existing Instance example_files.

(** C9 fails, in three ways.  A task whose watermark is 2^64 - 1 finds
    the head of the log at 5: the start of the range wraps to 0, the
    range from 0 to 5 is asked, and the task returns the watermark 5.
    A run that cannot load a state file which holds the watermark 15,
    and cannot reach the log either, ends well and writes the
    watermark 0 of the new state it made for the log.  And a run that
    loads a state file which holds, under the URL of the example log,
    a state whose own URL is that of the retired log, writes that
    state, with its watermark 1, over the watermark 20 the file holds
    for the retired log. *)
Lemma C9_counterexample :
  (events (processLog example_server (example_env 5 [])
             (example_state (2 ^ 64 - 1)))
   = [EvGetSTH "https://log.example/";
      EvGetRawEntries "https://log.example/" 0 5]
   /\ result (processLog example_server (example_env 5 [])
                (example_state (2 ^ 64 - 1)))
      = Returned {| URL := "https://log.example/"; Operator := "op";
                    Description := "an example log";
                    LastFetched := 5; LastFetchedTime := 1000 |}
   /\ ~ (forall (env : TaskEnv) (state state' : LogState),
            0 <= LastFetched state < 2 ^ 64 ->
            result (processLog example_server env state) = Returned state' ->
            LastFetched state <= LastFetched state'))
  /\ (fetchLogState (example_run "google" (Fail (LibError "timeout"))
                       unreachable_env)
      = Fail (LibError "timeout")
      /\ Handler (example_run "google" (Fail (LibError "timeout"))
                    unreachable_env)
         = {| run_result := Returned tt;
              run_events := [EvGetSTH "https://log.example/";
                             EvPutObject logStateKey "states" true] |}
      /\ watermark "https://log.example/"
           (Some {[ "https://log.example/" := example_state 15 ]}) = 15
      /\ watermark "https://log.example/"
           (file_after (example_run "google" (Fail (LibError "timeout"))
                          unreachable_env)
              (Some {[ "https://log.example/" := example_state 15 ]})) = 0
      /\ ~ (forall (env : RunEnv) (file : option (gmap string LogState))
                   (k : string),
               (forall m, file = Some m -> keyed_by_url m) ->
               never_below env file ->
               watermark k file <= watermark k (file_after env file)))
  /\ (starts_from (example_run "google" (Ok (Ok "stray")) unreachable_env)
        (Some (<[ "https://log.example/" := retired_state 1 ]>
                 {[ "https://old.example/" := retired_state 20 ]}))
      /\ never_below (example_run "google" (Ok (Ok "stray")) unreachable_env)
           (Some (<[ "https://log.example/" := retired_state 1 ]>
                    {[ "https://old.example/" := retired_state 20 ]}))
      /\ watermark "https://old.example/"
           (Some (<[ "https://log.example/" := retired_state 1 ]>
                    {[ "https://old.example/" := retired_state 20 ]})) = 20
      /\ watermark "https://old.example/"
           (file_after (example_run "google" (Ok (Ok "stray")) unreachable_env)
              (Some (<[ "https://log.example/" := retired_state 1 ]>
                       {[ "https://old.example/" := retired_state 20 ]})))
         = 1).
Proof.
  split; [|split].
  - split; [by vm_compute|]. split; [by vm_compute|].
    intros Hclaim.
    specialize (Hclaim (example_env 5 []) (example_state (2 ^ 64 - 1))
                  {| URL := "https://log.example/"; Operator := "op";
                     Description := "an example log";
                     LastFetched := 5; LastFetchedTime := 1000 |}).
    cbn in Hclaim. apply Z.le_ngt in Hclaim; [|lia|by vm_compute].
    apply Hclaim. lia.
  - repeat (split; [reflexivity|]).
    intros Hclaim.
    assert (Hle : watermark "https://log.example/"
                    (Some {[ "https://log.example/" := example_state 15 ]})
                  <= watermark "https://log.example/"
                       (file_after
                          (example_run "google" (Fail (LibError "timeout"))
                             unreachable_env)
                          (Some {[ "https://log.example/" :=
                                     example_state 15 ]}))).
    { apply Hclaim.
      - intros m [= <-] k st Hl.
        apply lookup_singleton_Some in Hl as [<- <-]. reflexivity.
      - intros i t size Hi Hs. discriminate Hs. }
    change (15 <= 0) in Hle. lia.
  - split; [reflexivity|].
    split; [|split; reflexivity].
    intros i t size Hi Hs. discriminate Hs.
Qed.

(** C9, as amended, on four runs; the file holds the watermark 10
    before the first of them.  The first finds the head of the log at
    15.  The second is told a size of 10, and its range request, from
    16 to 10, is refused; the third cannot reach the log; the fourth
    finds the head at 20. *)
Lemma C9_witness :
  steady
    [ example_run "google" (Ok (Ok "at10")) (example_env 15 []);
      example_run "google" (Ok (Ok "at15")) (serving_log (take 10 held15));
      example_run "google" (Ok (Ok "at15")) unreachable_env;
      example_run "google" (Ok (Ok "at15")) (example_env 20 []) ]
    (Some {[ "https://log.example/" := example_state 10 ]})
  /\ StronglySorted Z.le [10; 15; 15; 15; 20].
Proof.
  assert (Hsteady :
    steady
      [ example_run "google" (Ok (Ok "at10")) (example_env 15 []);
        example_run "google" (Ok (Ok "at15")) (serving_log (take 10 held15));
        example_run "google" (Ok (Ok "at15")) unreachable_env;
        example_run "google" (Ok (Ok "at15")) (example_env 20 []) ]
      (Some {[ "https://log.example/" := example_state 10 ]})).
  { cbn [steady].
    repeat split; try reflexivity;
      intros i t size Hi Hs; try discriminate Hs;
      injection Hs as <-;
      (destruct i as [|i];
       [injection Hi as <-;
        first [left; apply Z.leb_le; reflexivity
              |right; split;
               [apply Z.eqb_neq; reflexivity|eexists; reflexivity]]
       |destruct i; discriminate Hi]). }
  split; [exact Hsteady|].
  assert (Hkeyed : forall m,
             Some {[ "https://log.example/" := example_state 10 ]} = Some m ->
             keyed_by_url m).
  { intros m [= <-] k st Hl.
    apply lookup_singleton_Some in Hl as [<- <-]. reflexivity. }
  exact (C9_watermark_monotone_over_steady_runs _ _
           "https://log.example/" Hkeyed Hsteady).
Defined.

End PersistenceConcrete.
